(** * Schema builder (src/js/schema.js): a shallow embedding and its properties

    Schemas are tagged variants [[tag, options, ...params]] stored in
    JavaScript arrays that carry a marker property.  This file embeds the
    values the builder manipulates, the builder functions of schema.js with
    the underscore helpers they call, and proves properties of them. *)

From Stdlib Require Import ZArith String Ascii List Bool Lia.
From Stdlib Require Import DecimalNat DecimalString Floats.
From stdpp Require Import base option list gmap strings.

Local Open Scope string_scope.
Local Open Scope list_scope.
#[local] Arguments String.append !_ _ / : simpl nomatch.

(** ** JavaScript values

    The universe is the one schema.js inspects: the primitives undefined,
    null, booleans, numbers (IEEE doubles), strings and symbols, regular
    expressions, functions, arrays and plain objects.  Strings are sequences of code
    units, each held in one [ascii].  Arrays and objects are trees: nothing
    in schema.js mutates a node once the builder that made it has returned,
    so a node is identified with its contents. *)

(** The three properties schema.js installs on an array:
    [_schema] (by [bless]), [toString] (by [refHandler]) and [to] (by [fn]). *)
Record props : Set := Props {
  p_schema : bool;
  p_toString : bool;
  p_to : bool
}.

Definition plain : props := Props false false false.

Unset Elimination Schemes.
Inductive value : Type :=
| VUndef
| VNull
| VBool (b : bool)
| VNum (x : float)
| VStr (s : string)
| VRegExp (source : string)
| VFun (arity : nat) (text : string)
| VArr (p : props) (elems : list value)
| VObj (entries : list (string * value))
| VSymbol (description : string).
Set Elimination Schemes.

(** An object is the list of its own enumerable properties in enumeration
    order, keys pairwise distinct. *)
Definition object := list (string * value).

(** Exceptions: [Error] is the one schema.js throws itself, the others are
    raised by the engine or by underscore on its behalf. *)
Inductive exn : Set :=
| Error (message : string)
| TypeError
| RangeError
| SyntaxError.

Inductive completion (A : Type) : Type :=
| Return (a : A)
| Throw (e : exn).
Arguments Return {A} a.
Arguments Throw {A} e.

#[global] Instance completion_ret : MRet completion := @Return.
#[global] Instance completion_bind : MBind completion :=
  fun A B f m => match m with Return a => f a | Throw e => Throw e end.

(** Nested induction on values: the elements of an array and the property
    values of an object are smaller values. *)
Section value_induction.
Variable P : value -> Prop.
Hypothesis Hundef : P VUndef.
Hypothesis Hnull : P VNull.
Hypothesis Hbool : forall b, P (VBool b).
Hypothesis Hnum : forall x, P (VNum x).
Hypothesis Hstr : forall s, P (VStr s).
Hypothesis Hre : forall s, P (VRegExp s).
Hypothesis Hfun : forall n t, P (VFun n t).
Hypothesis Harr : forall p xs, Forall P xs -> P (VArr p xs).
Hypothesis Hobj : forall es, Forall (fun e => P (snd e)) es -> P (VObj es).
Hypothesis Hsym : forall d, P (VSymbol d).

Fixpoint value_nested_ind (v : value) : P v :=
  match v with
  | VUndef => Hundef
  | VNull => Hnull
  | VBool b => Hbool b
  | VNum x => Hnum x
  | VStr s => Hstr s
  | VRegExp s => Hre s
  | VFun n t => Hfun n t
  | VArr p xs =>
      Harr p xs
        ((fix elems_ind (l : list value) : Forall P l :=
            match l with
            | [] => @List.Forall_nil _ P
            | x :: l' => @List.Forall_cons _ P x l' (value_nested_ind x) (elems_ind l')
            end) xs)
  | VObj es =>
      Hobj es
        ((fix entries_ind (l : list (string * value))
            : Forall (fun e => P (snd e)) l :=
            match l with
            | [] => @List.Forall_nil _ _
            | e :: l' =>
                @List.Forall_cons _ (fun e => P (snd e)) e l'
                  (value_nested_ind (snd e)) (entries_ind l')
            end) es)
  | VSymbol d => Hsym d
  end.
End value_induction.

(** ** underscore's type predicates *)

Definition _isArray (v : value) : bool :=
  match v with VArr _ _ => true | _ => false end.

Definition _isString (v : value) : bool :=
  match v with VStr _ => true | _ => false end.

Definition _isNumber (v : value) : bool :=
  match v with VNum _ => true | _ => false end.

Definition _isRegExp (v : value) : bool :=
  match v with VRegExp _ => true | _ => false end.

Definition _isFunction (v : value) : bool :=
  match v with VFun _ _ => true | _ => false end.

(** [_.isObject]: [typeof] is 'function', or 'object' and the value is not null. *)
Definition _isObject (v : value) : bool :=
  match v with
  | VFun _ _ | VArr _ _ | VObj _ | VRegExp _ => true
  | _ => false
  end.

(** ** Plain objects

    Property read, and property write as [obj[k] = v] does it: an existing
    property keeps its place, a new one goes last.  This is the order in
    which the engine enumerates properties whose names are not array
    indices, as the schema options [title], [description] and [role] are;
    properties named by array indices the engine enumerates before the
    others, in ascending order, and for them the list gives the
    properties and their values but not their order. *)

Fixpoint obj_get (k : string) (o : object) : option value :=
  match o with
  | [] => None
  | (k', v) :: o' => if String.eqb k' k then Some v else obj_get k o'
  end.

Fixpoint obj_set (k : string) (v : value) (o : object) : object :=
  match o with
  | [] => [(k, v)]
  | (k', v') :: o' =>
      if String.eqb k' k then (k, v) :: o' else (k', v') :: obj_set k v o'
  end.

(** [obj[k]] as an expression: a missing property reads as undefined. *)
Definition obj_read (k : string) (o : object) : value :=
  match obj_get k o with Some v => v | None => VUndef end.

(** Decimal text of a natural number, as in [String(i)]. *)
Definition decimal (n : nat) : string := NilEmpty.string_of_uint (Nat.to_uint n).

(** ** The variant model: [schemaMagic], [isSchema], [bless] *)

Definition schemaMagic : string := "_schema".

(** [_.isArray(value) && value[schemaMagic]], as a truth value. *)
Definition isSchema (v : value) : bool :=
  match v with
  | VArr p _ => p_schema p
  | _ => false
  end.

(** [schema[schemaMagic] = true; return schema].  Every call in schema.js
    passes an array.  The file is in strict mode, so the assignment throws
    on a primitive; functions and regular expressions take the property,
    which the model does not record for them. *)
Definition bless (schema : value) : completion value :=
  match schema with
  | VArr p xs => Return (VArr (Props true (p_toString p) (p_to p)) xs)
  | VObj es => Return (VObj (obj_set schemaMagic (VBool true) es))
  | VFun _ _ | VRegExp _ => Return schema
  | VUndef | VNull | VBool _ | VNum _ | VStr _ | VSymbol _ => Throw TypeError
  end.

(** [blessFn fn = (...args) => bless(fn(...args))] *)
Definition blessFn {A} (fn : A -> completion value) : A -> completion value :=
  fun args => v ← fn args; bless v.

(** An array literal: a fresh array without extra properties. *)
Abbreviation arr := (VArr plain).

(** [arguments[i]] of a call: a missing argument reads as undefined. *)
Definition arg (i : nat) (args : list value) : value := nth i args VUndef.

(** ** The leaf builders [string] and [number] (before blessing) *)

Definition string_body (args : list value) : completion value :=
  let value := arg 0 args in
  let val :=
    if _isString value then arr [VStr "value"; value]
    else if _isRegExp value then arr [VStr "pattern"; value]
    else arr [] in
  Return (arr [VStr "string"; VObj []; val]).

Definition number_body (args : list value) : completion value :=
  let value := arg 0 args in
  let val :=
    if _isArray value then arr [VStr "interval"; value]
    else if _isNumber value then arr [VStr "value"; value]
    else arr [] in
  Return (arr [VStr "number"; VObj []; val]).

Definition S_string : list value -> completion value := blessFn string_body.
Definition S_number : list value -> completion value := blessFn number_body.

(** ** underscore's object helpers, and [m] *)

(** The functions stored in the [toString] and [to] properties. *)
Definition toString_fn : value :=
  VFun 0 "function () { var id = _.uniqueId(magic); cache[id] = this; return id; }".
Definition to_fn : value := VFun 0 "(...args) => bless(fn(...args))".

Definition own_props (p : props) : object :=
  (if p_to p then [("to", to_fn)] else []) ++
  (if p_toString p then [("toString", toString_fn)] else []) ++
  (if p_schema p then [(schemaMagic, VBool true)] else []).

(** [_.allKeys(obj)] paired with the values [obj[key]]: nothing unless
    [_.isObject(obj)], otherwise the properties a for-in loop visits. *)
Definition _allKeys (obj : value) : object :=
  match obj with
  | VObj es => es
  | VArr p xs => imap (fun i x => (decimal i, x)) xs ++ own_props p
  | _ => []
  end.

(** The inner loop of [_.extend]: [obj[key] = source[key]] for each key. *)
Definition assign (es o : object) : object :=
  fold_left (fun o' kv => obj_set (fst kv) (snd kv) o') es o.

(** [_.extend(obj, ...sources)]: later sources overwrite earlier ones. *)
Definition _extend (obj : object) (sources : list value) : object :=
  fold_left (fun o source => assign (_allKeys source) o) sources obj.

(** [_.pick(obj, predicate)] *)
Definition _pick (obj : object) (predicate : value -> bool) : object :=
  List.filter (fun kv => predicate (snd kv)) obj.

Definition is_undefined (v : value) : bool :=
  match v with VUndef => true | _ => false end.

(** [m = (...objs) => _.pick(_.extend.apply(null, [{}, ...objs]), v => v !== undefined)] *)
Definition m (objs : list value) : object :=
  _pick (_extend [] objs) (fun v => negb (is_undefined v)).

(** ** The reference cache *)

(** [cache] of schema.js and [idCounter] of underscore. *)
Record state : Type := State {
  cache : gmap string value;
  idCounter : nat
}.

Definition magic : string := "__$$_$_$$".

(** [++idCounter].  The counter is a double that underscore sets to 0 and
    that nothing but [_.uniqueId] writes: it holds an integer of at most
    2^53, and there adding 1 no longer changes it. *)
Definition plus_one (n : nat) : nat :=
  if (Z.of_nat n <? 9007199254740992)%Z then S n else n.

(** [_.uniqueId(prefix)]: [var id = ++idCounter + ''; return prefix ? prefix + id : id]. *)
Definition _uniqueId (prefix : string) (st : state) : string * state :=
  let n := plus_one (idCounter st) in
  let id := decimal n in
  (if String.eqb prefix "" then id else (prefix ++ id)%string, State (cache st) n).

(** The function [refHandler] installs as [toString], run with [this]. *)
Definition ref_toString (this : value) (st : state) : string * state :=
  let '(id, st1) := _uniqueId magic st in
  (id, State (<[id := this]> (cache st1)) (idCounter st1)).

(** [schema.toString = function ...; return schema] (strict mode, as [bless]). *)
Definition refHandler (schema : value) : completion value :=
  match schema with
  | VArr p xs => Return (VArr (Props (p_schema p) true (p_to p)) xs)
  | VObj es => Return (VObj (obj_set "toString" toString_fn es))
  | VFun _ _ | VRegExp _ => Return schema
  | VUndef | VNull | VBool _ | VNum _ | VStr _ | VSymbol _ => Throw TypeError
  end.

(** [cache[k]]: undefined when there is no entry.  (No property a plain
    object inherits has a name that starts with [magic].) *)
Definition cache_read (c : gmap string value) (k : string) : value :=
  match c !! k with Some v => v | None => VUndef end.

(** ** Key classification *)

Inductive key_type : Set := pattern | reference | string_key.

(** [s.indexOf(t)] *)
Definition indexOf (s t : string) : Z :=
  match String.index 0 t s with
  | Some n => Z.of_nat n
  | None => (-1)%Z
  end.

(** [s[i] === ch] *)
Definition char_at_is (s : string) (i : nat) (ch : ascii) : bool :=
  match String.get i s with
  | Some a => Ascii.eqb a ch
  | None => false
  end.

(** For the empty key [k.length - 1] is -1 and [k[-1]] is undefined; the
    conjunction is already false at [k[0]]. *)
Definition keyType (k : string) : key_type :=
  if char_at_is k 0 "/" && char_at_is k (String.length k - 1) "/" then pattern
  else if (indexOf k magic =? 0)%Z then reference
  else string_key.

(** [s.slice(from, to)] for indices that are not negative. *)
Definition slice (s : string) (from to : nat) : string :=
  String.substring from (to - from) s.

(** ** Array helpers *)

(** [xs.slice(from, to)] and [xs.slice(from)] for indices that are not negative. *)
Definition array_slice (xs : list value) (from to : nat) : list value :=
  take (to - from) (drop from xs).

(** Iterating a value, as array destructuring does: arrays and strings are
    iterable, every other value of the universe is not (a symbol is not). *)
Definition iterate (v : value) : completion (list value) :=
  match v with
  | VArr _ xs => Return xs
  | VStr s => Return (List.map (fun a => VStr (String a EmptyString)) (list_ascii_of_string s))
  | _ => Throw TypeError
  end.

(** [partitionN(coll, n)], for positive [n]: [_.range(x)] counts up to the
    ceiling of [x]. *)
Definition partitionN (coll : list value) (n : nat) : list (list value) :=
  List.map (fun i => array_slice coll (i * n) ((i + 1) * n))
    (seq 0 ((length coll + n - 1) / n)).

(** ** Numbers as array lengths *)

Definition MAX_ARRAY_INDEX : float := 9007199254740991%float.

Definition is_integer (x : float) : bool :=
  match Prim2SF x with
  | S754_zero _ => true
  | S754_finite _ mant e => (0 <=? e)%Z || (Z.pos mant mod 2 ^ (- e) =? 0)%Z
  | _ => false
  end.

(** underscore's [isArrayLike]: [typeof length == 'number' && length >= 0 &&
    length <= MAX_ARRAY_INDEX], for the value of the [length] property. *)
Definition isArrayLike_length (len : value) : bool :=
  match len with
  | VNum x => PrimFloat.leb 0%float x && PrimFloat.leb x MAX_ARRAY_INDEX
  | _ => false
  end.

(** ** The source of a regular expression

    A [VRegExp] holds the [source] of the regular expression.  The source
    of [new RegExp(p)] is [p] escaped so that it can stand between two
    slashes (EscapeRegExpPattern of the language definition, which leaves
    the details to the engine).  This is the escaping of V8: the empty
    pattern becomes [(?:)]; a slash that is not escaped and not inside a
    character class gets a backslash; a line feed and a carriage return
    are written [\n] and [\r], a backslash in front of them being
    dropped; an escaped character is copied with its backslash.  (The
    two other line terminators, U+2028 and U+2029, are not among the code
    units an [ascii] holds.) *)

Definition is_line_terminator (a : ascii) : bool :=
  Ascii.eqb a "010" || Ascii.eqb a "013".

Definition escaped_terminator (a : ascii) : string :=
  if Ascii.eqb a "010" then "\n" else "\r".

Fixpoint escape_source (in_class : bool) (p : string) : string :=
  match p with
  | EmptyString => EmptyString
  | String a rest =>
      if Ascii.eqb a "\" then
        match rest with
        | EmptyString => String a EmptyString
        | String b rest' =>
            if is_line_terminator b
            then escaped_terminator b +:+ escape_source in_class rest'
            else String a (String b (escape_source in_class rest'))
        end
      else if Ascii.eqb a "/" && negb in_class
      then String "\" (String "/" (escape_source in_class rest))
      else if Ascii.eqb a "[" then String a (escape_source true rest)
      else if Ascii.eqb a "]" then String a (escape_source false rest)
      else if is_line_terminator a
      then escaped_terminator a +:+ escape_source in_class rest
      else String a (escape_source in_class rest)
  end.

Definition EscapeRegExpPattern (p : string) : string :=
  if String.eqb p "" then "(?:)" else escape_source false p.

(** ** The builders

    [regexp_ok] is the engine's syntax check of a regular expression:
    [new RegExp(p)] throws a SyntaxError when [p] is not one. *)
Section Schema.
Variable regexp_ok : string -> bool.

Definition new_RegExp (p : string) : completion value :=
  if regexp_ok p then Return (VRegExp (EscapeRegExpPattern p)) else Throw SyntaxError.

(** The functions below call [literals], and [literals] calls them back
    through [S]; they are first written over the function [lit] bound to
    that name.  None of them writes the cache: [c] is the cache as it is
    when they run. *)
Section with_literals.
Variable lit : value -> completion value.
Variable c : gmap string value.

(** [key(schema, k)] for a property name [k]; the elements of each array
    literal are evaluated from left to right. *)
Definition key_with (schema : value) (k : string) : completion value :=
  match keyType k with
  | pattern =>
      re ← new_RegExp (slice k 1 (String.length k - 1));
      ks ← S_string [re];
      vs ← lit schema;
      Return (arr [ks; vs])
  | string_key =>
      ks ← S_string [VStr k];
      vs ← lit schema;
      Return (arr [ks; vs])
  | reference =>
      vs ← lit schema;
      Return (arr [cache_read c k; vs])
  end.

(** [_.map(obj, key)] when underscore walks [obj] by index,
    [results = Array(length)] and then [key(obj[0], 0, obj)], in which
    [keyType(0)] calls the missing method [indexOf] of a number. *)
Definition map_key_by_index (len : float) : completion (list value) :=
  if negb (is_integer len && PrimFloat.leb len 4294967295%float) then Throw RangeError
  else if PrimFloat.eqb len 0%float then Return []
  else Throw TypeError.

Definition map_key_by_index_nat (len : nat) : completion (list value) :=
  if (len =? 0)%nat then Return [] else Throw TypeError.

(** [_.map(obj, key)]: by index when [isArrayLike(obj)], otherwise over
    [_.keys(obj)], which is empty unless [obj] is an object. *)
Definition map_key_with (obj : value) : completion (list value) :=
  match obj with
  | VObj es =>
      if isArrayLike_length (obj_read "length" es)
      then match obj_read "length" es with
           | VNum len => map_key_by_index len
           | _ => Return []
           end
      else mapM (fun e => key_with (snd e) (fst e)) es
  | VArr _ xs => map_key_by_index_nat (length xs)
  | VStr s => map_key_by_index_nat (String.length s)
  | VFun arity _ => map_key_by_index_nat arity
  | VUndef | VNull | VBool _ | VNum _ | VRegExp _ | VSymbol _ => Return []
  end.

(** The two branches of [objargs]. *)
Definition objargs_map (type : string) (obj : value) : completion value :=
  ps ← map_key_with obj;
  Return (arr (VStr type :: VObj [] :: ps)).

Definition objargs_pairs (type : string) (args : list value) : completion value :=
  ps ← mapM (fun schs => xs ← mapM lit schs; Return (arr xs)) (partitionN args 2);
  Return (arr (VStr type :: VObj [] :: ps)).

Definition objargs_with (type : string) (args : list value) : completion value :=
  if (length args =? 1)%nat then objargs_map type (arg 0 args)
  else objargs_pairs type args.

(** The functions of the table passed to [blessAll]. *)

(** The closure [schema => [...s.slice(0, 2), schema, ...s.slice(3)]]
    for the elements [s] of the node that owns it. *)
Definition to_body (s : list value) (args : list value) : completion value :=
  Return (arr (array_slice s 0 2 ++ arg 0 args :: drop 3 s)).

(** [_.extend(s, {to: ...})] sets the [to] property of the fresh array. *)
Definition fn_with (schemas : list value) : completion value :=
  xs ← mapM lit schemas;
  Return (VArr (Props false false true)
            (VStr "function" :: VObj [] :: VNull :: xs)).

Definition or_with (schemas : list value) : completion value :=
  xs ← mapM lit schemas;
  Return (arr (VStr "or" :: VObj [] :: xs)).

Definition array_with (schemas : list value) : completion value :=
  xs ← mapM lit schemas;
  Return (arr (VStr "tuple" :: VObj [] :: xs)).

Definition arrayOf_with (args : list value) : completion value :=
  x ← lit (arg 0 args);
  Return (arr [VStr "list"; VObj []; x]).

Definition desc_with (args : list value) : completion value :=
  let args := if (length args =? 2)%nat then VUndef :: args else args in
  let title := arg 0 args in
  let description := arg 1 args in
  let schema := arg 2 args in
  node ← lit schema;
  xs ← iterate node;
  let type := arg 0 xs in
  let opts := arg 1 xs in
  let rest := drop 2 xs in
  refHandler
    (arr (type
          :: VObj (m [VObj [("title", title); ("description", description)]; opts])
          :: rest)).

Definition role_body (args : list value) : completion value :=
  let role := arg 0 args in
  xs ← iterate (arg 1 args);
  let type := arg 0 xs in
  let opts := arg 1 xs in
  let rest := drop 2 xs in
  Return (arr [VStr "annotation"; VObj [("role", role)]; arr (type :: opts :: rest)]).
End with_literals.

(** The text of the thrown error: [`Unknown schema value ${value}`]. *)
Definition unknown (text : string) : exn :=
  Error ("Unknown schema value " ++ text)%string.

(** [literals(value)].  The tests of the source are decided by the
    constructor of [value]; [literals_eq] below restates the function as
    the source writes it.  The values that reach the [throw] are
    undefined, null, the booleans, the functions, whose text is their
    source, and the symbols, on which the template literal of the error
    message throws a TypeError of its own. *)
Fixpoint literals (c : gmap string value) (value : value) {struct value}
  : completion _ :=
  match value with
  | VArr p xs =>
      if p_schema p then Return value
      else match xs with
           | [x] => node ← arrayOf_with (literals c) [x]; bless node
           | _ => node ← array_with (literals c) xs; bless node
           end
  | VStr _ => S_string [value]
  | VNum _ => S_number [value]
  | VObj es =>
      node ← objargs_map (literals c) c
                (if (length es =? 1)%nat then "dict" else "object") value;
      bless node
  | VRegExp _ => node ← objargs_map (literals c) c "object" value; bless node
  | VUndef => Throw (unknown "undefined")
  | VNull => Throw (unknown "null")
  | VBool b => Throw (unknown (if b then "true" else "false"))
  | VFun _ text => Throw (unknown text)
  | VSymbol _ => Throw TypeError
  end.

(** The functions of schema.js under their names; [S_x] is [S.x], the
    entry of [methods] after [blessAll]. *)
Definition key (c : gmap string value) : value -> string -> completion value :=
  key_with (literals c) c.

Definition objargs (c : gmap string value) : string -> list value -> completion value :=
  objargs_with (literals c) c.

Definition S_fn (c : gmap string value) := blessFn (fn_with (literals c)).
Definition S_or (c : gmap string value) := blessFn (or_with (literals c)).
Definition S_array (c : gmap string value) := blessFn (array_with (literals c)).
Definition S_arrayOf (c : gmap string value) := blessFn (arrayOf_with (literals c)).
Definition S_desc (c : gmap string value) := blessFn (desc_with (literals c)).
Definition S_role := blessFn role_body.
Definition S_object (c : gmap string value) := blessFn (objargs c "object").
Definition S_dict (c : gmap string value) := blessFn (objargs c "dict").
Definition S_objectOf := S_dict.
Definition S_boolean : completion value := bless (arr [VStr "boolean"; VObj []]).
Definition S_nullval : completion value := bless (arr [VStr "null"; VObj []]).

(** The method call [f.to(...args)] on an array [f]: the closure [fn]
    installed, wrapped by [blessFn]; an array without the property
    inherits none, and calling undefined throws.  (Only arrays are
    function nodes.) *)
Definition call_to (f : value) (args : list value) : completion value :=
  match f with
  | VArr p s => if p_to p then blessFn (to_body s) args else Throw TypeError
  | _ => Throw TypeError
  end.

(** ** Notions the properties are stated with *)

(** [value.length] and [value[i]] of an array, [Object.keys(value)]. *)
Definition elements (v : value) : list value :=
  match v with VArr _ xs => xs | _ => [] end.

Definition Object_keys (v : value) : list string :=
  match v with VObj es => List.map fst es | _ => [] end.

(** The text [`${value}`] of the primitives undefined, null, true and
    false and of a function.  A symbol has none: the template literal
    throws a TypeError on it.  (The other values do not reach the [throw]
    of [literals].) *)
Definition template (v : value) : option string :=
  match v with
  | VUndef => Some "undefined"
  | VNull => Some "null"
  | VBool b => Some (if b then "true" else "false")
  | VFun _ text => Some text
  | _ => None
  end.

Definition is_symbol (v : value) : bool :=
  match v with VSymbol _ => true | _ => false end.

(** None of the kinds [literals] accepts: not a schema node, not text, not
    a number, not an array, and not an object other than a function. *)
Definition unsupported (v : value) : bool :=
  negb (isSchema v) && negb (_isString v) && negb (_isNumber v)
  && negb (_isArray v)
  && negb (_isObject v && negb (_isArray v) && negb (_isFunction v)).

(** [u] is [v] or lies inside it: an element of an array or a property
    value of an object, at any depth. *)
Inductive within (u : value) : value -> Prop :=
| within_here : within u u
| within_elem p xs x : In x xs -> within u x -> within u (VArr p xs)
| within_entry es k x : In (k, x) es -> within u x -> within u (VObj es).

(** The schema tree without the properties [_schema], [toString] and
    [to], as the tests compare trees. *)
Fixpoint curse (v : value) : value :=
  match v with
  | VArr _ xs => arr (List.map curse xs)
  | VObj es => VObj (List.map (fun e => (fst e, curse (snd e))) es)
  | _ => v
  end.

(** The first and the last character of [k] are both the slash. *)
Definition delimited (k : string) : Prop :=
  (exists rest, k = String "/" rest) /\ (exists init, k = init +:+ "/").

Definition begins_with (t k : string) : Prop := exists rest, k = t +:+ rest.

(** [k] without its first and without its last character. *)
Fixpoint drop_last (s : string) : string :=
  match s with
  | EmptyString => EmptyString
  | String a EmptyString => EmptyString
  | String a s' => String a (drop_last s')
  end.

Definition strip_delimiters (k : string) : string :=
  drop_last (match k with EmptyString => EmptyString | String _ rest => rest end).

(** A pattern text that is not empty and holds no slash, no line feed and
    no carriage return. *)
Fixpoint no_slash_or_terminator (p : string) : bool :=
  match p with
  | EmptyString => true
  | String a rest =>
      negb (Ascii.eqb a "/") && negb (is_line_terminator a) && no_slash_or_terminator rest
  end.

Definition needs_no_escape (p : string) : bool :=
  negb (String.eqb p "") && no_slash_or_terminator p.

(** A string schema node with the given descriptor, a number schema node. *)
Definition blessed : props := Props true false false.

Definition string_node (val : list value) : value :=
  VArr blessed [VStr "string"; VObj []; arr val].

Definition number_node (val : list value) : value :=
  VArr blessed [VStr "number"; VObj []; arr val].

(** Coercion to text of a node that carries the [toString] of
    [refHandler], as a computed property name [{[s]: ...}] does it. *)
Definition toString_of (s : value) (st : state) : option (string * state) :=
  match s with
  | VArr p _ => if p_toString p then Some (ref_toString s st) else None
  | _ => None
  end.

(** The values the functions offered to the consumer return: the entries
    of [S], the method [to] of a node made by [fn], and [literals] itself. *)
Inductive built (c : gmap string value) : value -> Prop :=
| built_string args v : S_string args = Return v -> built c v
| built_number args v : S_number args = Return v -> built c v
| built_or args v : S_or c args = Return v -> built c v
| built_array args v : S_array c args = Return v -> built c v
| built_arrayOf args v : S_arrayOf c args = Return v -> built c v
| built_object args v : S_object c args = Return v -> built c v
| built_dict args v : S_dict c args = Return v -> built c v
| built_objectOf args v : S_objectOf c args = Return v -> built c v
| built_fn args v : S_fn c args = Return v -> built c v
| built_desc args v : S_desc c args = Return v -> built c v
| built_role args v : S_role args = Return v -> built c v
| built_boolean v : S_boolean = Return v -> built c v
| built_nullval v : S_nullval = Return v -> built c v
| built_to schemas f args v :
    S_fn c schemas = Return f -> call_to f args = Return v -> built c v
| built_literals x v : literals c x = Return v -> built c v.

(** Objects whose property names are pairwise distinct. *)
Definition distinct_keys (o : object) : Prop := NoDup (List.map fst o).

(** An option without the value undefined, as [m] leaves a property. *)
Definition defined (o : option value) : option value :=
  match o with
  | Some VUndef => None
  | _ => o
  end.

(** Sample data: an engine that accepts every pattern, the nodes
    [number(5)] and [string('foo')] of the test suite, a described node
    [desc('Name', 'desc', string())] and a token of the cache. *)
Definition accept_all (p : string) : bool := true.

Definition number_5 : value := number_node [VStr "value"; VNum 5%float].
Definition string_foo : value := string_node [VStr "value"; VStr "foo"].

Definition named_string : value :=
  VArr (Props true true false)
    [VStr "string";
     VObj [("title", VStr "Name"); ("description", VStr "desc")];
     arr []].

Definition token_1 : string := "__$$_$_$$1".

(** The node [fn('a')]. *)
Definition fn_a : value :=
  VArr (Props true false true)
    [VStr "function"; VObj []; VNull; string_node [VStr "value"; VStr "a"]].

(** ** Further notions *)

(** The regular expression of a pattern key can be constructed. *)
Definition key_ok (k : string) : bool :=
  match keyType k with
  | pattern => regexp_ok (slice k 1 (String.length k - 1))
  | _ => true
  end.

(** The values [literals] coerces without throwing: text, numbers, regular
    expressions, schema nodes, arrays of such values, and objects of such
    values whose pattern keys are regular expressions; an object that
    underscore takes for an array only when its length is zero. *)
Fixpoint coercible (v : value) : bool :=
  match v with
  | VStr _ | VNum _ | VRegExp _ => true
  | VArr p xs => p_schema p || forallb coercible xs
  | VObj es =>
      if isArrayLike_length (obj_read "length" es)
      then match obj_read "length" es with
           | VNum len =>
               is_integer len && PrimFloat.leb len 4294967295%float
               && PrimFloat.eqb len 0%float
           | _ => true
           end
      else forallb (fun e => key_ok (fst e) && coercible (snd e)) es
  | VUndef | VNull | VBool _ | VFun _ _ | VSymbol _ => false
  end.

(** Every key of the cache is a token minted so far. *)
Definition minted (st : state) : Prop :=
  forall k, is_Some (cache st !! k) ->
    exists n, k = magic +:+ decimal n /\ 1 <= n <= idCounter st.

(** A blessed array of the form [[tag, options, ...params]]. *)
Definition node_shape (v : value) : Prop :=
  exists p tag opts params,
    v = VArr p (VStr tag :: VObj opts :: params) /\ p_schema p = true.

(** No property of the object holds undefined. *)
Definition all_defined (o : object) : Prop :=
  Forall (fun e => is_undefined (snd e) = false) o.

(** The schema argument of [desc]: the third argument, or the second when
    there are just two. *)
Definition desc_schema (args : list value) : value :=
  arg 2 (if (length args =? 2)%nat then VUndef :: args else args).

(** ** The helpers of the test suite

    [del(obj, props)] deletes own properties; on an array it is used with
    the names of the properties schema.js installs. *)
Definition del (p : props) (names : list string) : props :=
  Props (p_schema p && negb (existsb (String.eqb schemaMagic) names))
        (p_toString p && negb (existsb (String.eqb "toString") names))
        (p_to p && negb (existsb (String.eqb "to") names)).

(** [mapTree(t, fn)] for a function [fn] that, like the one [curse] passes,
    changes properties of the array it is given and returns that array.
    [_.map] and [_.mapObject] build a fresh array and a fresh object; an
    object without enumerable properties, such as a function or a regular
    expression, maps to the empty object.  The first component is the
    value returned, the second is the argument as the call leaves it. *)
Fixpoint mapTree (t : value) (fn : props -> props) : value * value :=
  match t with
  | VArr p xs =>
      let rs := List.map (fun v => mapTree v fn) xs in
      (arr (List.map fst rs), VArr (fn p) (List.map snd rs))
  | VObj es =>
      let rs := List.map (fun e => (fst e, mapTree (snd e) fn)) es in
      (VObj (List.map (fun r => (fst r, fst (snd r))) rs),
       VObj (List.map (fun r => (fst r, snd (snd r))) rs))
  | VFun _ _ | VRegExp _ => (VObj [], t)
  | _ => (t, t)
  end.

(** [curse = schema => mapTree(schema, obj => { del(obj, [schemaMagic,
    'toString']); return obj; })] of the test suite. *)
Definition test_curse (schema : value) : value * value :=
  mapTree schema (fun p => del p [schemaMagic; "toString"]).

(** More sample data: an engine that rejects the pattern of one open
    parenthesis, and a state whose cache holds one minted token. *)
Definition reject_paren (p : string) : bool := negb (String.eqb p "(").

Definition one_token_state : state := State {[token_1 := named_string]} 1.

(** The tree with every function and every regular expression replaced
    by the empty object. *)
Fixpoint emptied (v : value) : value :=
  match v with
  | VArr p xs => VArr p (List.map emptied xs)
  | VObj es => VObj (List.map (fun e => (fst e, emptied (snd e))) es)
  | VFun _ _ | VRegExp _ => VObj []
  | _ => v
  end.

(** The property records of the arrays of a tree, an array before its
    elements. *)
Fixpoint props_within (v : value) : list props :=
  match v with
  | VArr p xs => p :: flat_map props_within xs
  | VObj es => flat_map (fun e => props_within (snd e)) es
  | _ => []
  end.

(** * Properties *)

(** ** Strings *)

Lemma char_at_0_is k ch :
  char_at_is k 0 ch = true <-> exists rest, k = String ch rest.
Proof.
  unfold char_at_is. destruct k as [|a k]; simpl.
  - split; [discriminate | intros [rest H]; discriminate].
  - rewrite Ascii.eqb_eq. split.
    + intros ->. eauto.
    + intros [rest H]. congruence.
Qed.

Lemma char_at_last_is k ch :
  char_at_is k (String.length k - 1) ch = true
  <-> exists init, k = init +:+ String ch EmptyString.
Proof.
  unfold char_at_is. induction k as [|a k IH].
  - simpl. split; [discriminate|]. intros [[|b init] H]; discriminate.
  - destruct k as [|b k].
    + simpl. rewrite Ascii.eqb_eq. split.
      * intros ->. by exists EmptyString.
      * intros [[|a' init] H]; simpl in H; [congruence|].
        injection H as _ H. destruct init; discriminate.
    + replace (String.length (String a (String b k)) - 1)
        with (S (String.length (String b k) - 1)) by (simpl; lia).
      cbn [String.get].
      rewrite IH. split.
      * intros [init ->]. by exists (String a init).
      * intros [[|a' init] H]; simpl in H; [discriminate|].
        injection H as -> H. eauto.
Qed.

Lemma prefix_app s t : String.prefix s t = true <-> exists rest, t = s +:+ rest.
Proof.
  revert t. induction s as [|a s IH]; intros t.
  - destruct t; simpl; split; eauto.
  - destruct t as [|b t]; simpl.
    + split; [discriminate | intros [rest H]; discriminate].
    + destruct (ascii_dec a b) as [->|Hne].
      * rewrite IH. split; intros [rest H]; exists rest; congruence.
      * split; [discriminate|]. intros [rest H]. congruence.
Qed.

Lemma indexOf_0 k t :
  t <> EmptyString -> ((indexOf k t =? 0)%Z = true <-> String.prefix t k = true).
Proof.
  intros Ht. unfold indexOf. destruct k as [|b k].
  - destruct t as [|a t]; [done|]. simpl. split; discriminate.
  - cbn [String.index]. destruct (String.prefix t (String b k)) eqn:E; [done|].
    destruct (String.index 0 t k); simpl; split; discriminate.
Qed.

Lemma substring_0_app s t :
  String.substring 0 (String.length s) (s +:+ t) = s.
Proof. induction s as [|a s IH]; simpl; [by destruct t | by rewrite IH]. Qed.

Lemma length_app s t :
  String.length (s +:+ t) = String.length s + String.length t.
Proof. induction s as [|a s IH]; simpl; [done | by rewrite IH]. Qed.

(** [k.slice(1, k.length - 1)] removes the first and the last character. *)
Lemma slice_delimiters a b mid :
  let k := String a (mid +:+ String b EmptyString) in
  slice k 1 (String.length k - 1) = mid.
Proof.
  simpl. unfold slice. rewrite Nat.sub_0_r, length_app. simpl.
  replace (String.length mid + 1 - 1) with (String.length mid) by lia.
  simpl. apply substring_0_app.
Qed.

(** ** The completion monad *)

Lemma bind_Return {A B} (f : A -> completion B) (m : completion A) b :
  (x ← m; f x) = Return b <-> exists a, m = Return a /\ f a = Return b.
Proof.
  destruct m as [a|e]; simpl; split.
  - eauto.
  - by intros (a' & [= <-] & H).
  - discriminate.
  - by intros (a' & [=] & _).
Qed.

Lemma bind_Throw {A B} (f : A -> completion B) (m : completion A) e :
  (x ← m; f x) = Throw e
  <-> m = Throw e \/ exists a, m = Return a /\ f a = Throw e.
Proof.
  destruct m as [a|e']; simpl; split.
  - intros H. right. eauto.
  - intros [H | (a' & H1 & H2)]; [discriminate | by injection H1 as <-].
  - intros [= ->]. by left.
  - intros [[= ->] | (a' & H1 & _)]; [done | discriminate].
Qed.

Lemma mapM_cons {A B} (f : A -> completion B) x l :
  mapM f (x :: l) = (y ← f x; k ← mapM f l; Return (y :: k)).
Proof. reflexivity. Qed.

Lemma mapM_Return {A B} (f : A -> completion B) l k :
  mapM f l = Return k <-> Forall2 (fun x y => f x = Return y) l k.
Proof.
  revert k. induction l as [|x l IH]; intros k.
  - split.
    + intros [= <-]. constructor.
    + by inversion 1.
  - rewrite mapM_cons, bind_Return. split.
    + intros (y & Hy & H). apply bind_Return in H as (k' & Hk & [= <-]).
      constructor; [done | by apply IH].
    + inversion 1 as [|? y ? k' Hy Hk]; subst. exists y. split; [done|].
      apply IH in Hk. by rewrite Hk.
Qed.

Lemma mapM_Throw {A B} (f : A -> completion B) l e :
  mapM f l = Throw e -> exists x, In x l /\ f x = Throw e.
Proof.
  induction l as [|x l IH]; [discriminate|].
  rewrite mapM_cons, bind_Throw. intros [H | (y & Hy & H)].
  - exists x. split; [by left | done].
  - apply bind_Throw in H as [H | (k & _ & [=])].
    destruct (IH H) as (x' & Hin & Hx'). exists x'. split; [by right | done].
Qed.

(** ** Blessing *)

Lemma bless_array p xs :
  bless (VArr p xs) = Return (VArr (Props true (p_toString p) (p_to p)) xs).
Proof. reflexivity. Qed.

Lemma isSchema_array v :
  isSchema v = true <-> exists p xs, v = VArr p xs /\ p_schema p = true.
Proof.
  destruct v; simpl; split; try discriminate; try by intros (? & ? & [=] & _).
  - eauto.
  - by intros (? & ? & [= <- <-] & H).
Qed.

Lemma S_string_eq args :
  S_string args =
  Return (string_node
            (if _isString (arg 0 args) then [VStr "value"; arg 0 args]
             else if _isRegExp (arg 0 args) then [VStr "pattern"; arg 0 args]
             else [])).
Proof. unfold S_string, blessFn, string_body. simpl. by repeat case_match. Qed.

Lemma S_number_eq args :
  S_number args =
  Return (number_node
            (if _isArray (arg 0 args) then [VStr "interval"; arg 0 args]
             else if _isNumber (arg 0 args) then [VStr "value"; arg 0 args]
             else [])).
Proof. unfold S_number, blessFn, number_body. simpl. by repeat case_match. Qed.

Lemma bless_isSchema v y : _isArray v = true -> bless v = Return y -> isSchema y = true.
Proof. destruct v; try discriminate. by intros _ [= <-]. Qed.

(** What [blessFn] returns is blessed when the wrapped function returns arrays. *)
Lemma blessFn_isSchema {A} (fn : A -> completion value) args y :
  (forall v, fn args = Return v -> _isArray v = true) ->
  blessFn fn args = Return y -> isSchema y = true.
Proof.
  intros Harr. unfold blessFn. rewrite bind_Return. intros (v & Hv & Hy).
  eapply bless_isSchema; eauto.
Qed.

(** Every function of the table returns an array literal. *)
Ltac returns_array :=
  intros;
  repeat match goal with
    | H : (_ ← _; _) = Return _ |- _ => apply bind_Return in H as (? & ? & H)
    | H : Return _ = Return _ |- _ => injection H as <-
    end;
  try reflexivity.

Section arrays_returned.
Variable lit : value -> completion value.
Variable c : gmap string value.

Lemma string_body_array args v : string_body args = Return v -> _isArray v = true.
Proof. unfold string_body. returns_array. Qed.

Lemma number_body_array args v : number_body args = Return v -> _isArray v = true.
Proof. unfold number_body. returns_array. Qed.

Lemma fn_with_array args v : fn_with lit args = Return v -> _isArray v = true.
Proof. unfold fn_with. returns_array. Qed.

Lemma or_with_array args v : or_with lit args = Return v -> _isArray v = true.
Proof. unfold or_with. returns_array. Qed.

Lemma array_with_array args v : array_with lit args = Return v -> _isArray v = true.
Proof. unfold array_with. returns_array. Qed.

Lemma arrayOf_with_array args v : arrayOf_with lit args = Return v -> _isArray v = true.
Proof. unfold arrayOf_with. returns_array. Qed.

Lemma desc_with_array args v : desc_with lit args = Return v -> _isArray v = true.
Proof.
  unfold desc_with. returns_array.
  match goal with H : refHandler _ = _ |- _ => by injection H as <- end.
Qed.

Lemma role_body_array args v : role_body args = Return v -> _isArray v = true.
Proof. unfold role_body. returns_array. Qed.

Lemma objargs_map_array type obj v :
  objargs_map lit c type obj = Return v -> _isArray v = true.
Proof. unfold objargs_map. returns_array. Qed.

Lemma objargs_with_array type args v :
  objargs_with lit c type args = Return v -> _isArray v = true.
Proof.
  unfold objargs_with, objargs_pairs. case_match; [apply objargs_map_array|].
  returns_array.
Qed.

Lemma to_body_array s args v : to_body s args = Return v -> _isArray v = true.
Proof. unfold to_body. returns_array. Qed.
End arrays_returned.

(** [literals] as schema.js writes it. *)
Lemma literals_eq c value :
  literals c value =
  if isSchema value then Return value
  else if _isString value then S_string [value]
  else if _isNumber value then S_number [value]
  else if _isArray value then
    (if (length (elements value) =? 1)%nat then S_arrayOf c [arg 0 (elements value)]
     else S_array c (elements value))
  else if _isObject value && negb (_isArray value) && negb (_isFunction value) then
    (if (length (Object_keys value) =? 1)%nat then S_objectOf c [value]
     else S_object c [value])
  else match template value with
       | Some text => Throw (unknown text)
       | None => Throw TypeError
       end.
Proof.
  destruct value as [| |b|x|s|s|n t|p xs|es|d]; try reflexivity.
  - simpl. destruct (p_schema p); [done|]. by destruct xs as [|x [|y xs]].
  - cbn [literals isSchema _isString _isNumber _isArray _isObject _isFunction
         negb andb Object_keys].
    rewrite length_map. by destruct (length es =? 1)%nat.
Qed.

(** Whatever [literals] returns is a blessed node. *)
Lemma literals_isSchema c v y : literals c v = Return y -> isSchema y = true.
Proof.
  rewrite literals_eq. repeat case_match; try discriminate.
  - by intros [= <-].
  - apply blessFn_isSchema, string_body_array.
  - apply blessFn_isSchema, number_body_array.
  - apply blessFn_isSchema, arrayOf_with_array.
  - apply blessFn_isSchema, array_with_array.
  - apply blessFn_isSchema, objargs_with_array.
  - apply blessFn_isSchema, objargs_with_array.
Qed.

(** ** Key classification *)

Lemma magic_not_empty : magic <> EmptyString.
Proof. discriminate. Qed.

Lemma keyType_pattern_iff k : keyType k = pattern <-> delimited k.
Proof.
  unfold keyType, delimited. rewrite <- char_at_0_is, <- char_at_last_is.
  destruct (char_at_is k 0 "/"), (char_at_is k (String.length k - 1) "/"); simpl;
    try (split; [done | by intros [??]]);
    (split; [by case_match | by intros [??]]).
Qed.

Lemma begins_with_magic_not_delimited k : begins_with magic k -> ~ delimited k.
Proof. intros [rest ->] [[rest' H] _]. discriminate. Qed.

Lemma keyType_reference_iff k :
  keyType k = reference <-> ~ delimited k /\ begins_with magic k.
Proof.
  unfold begins_with. rewrite <- prefix_app, <- (indexOf_0 _ _ magic_not_empty).
  rewrite <- keyType_pattern_iff. unfold keyType.
  destruct (char_at_is k 0 "/" && char_at_is k (String.length k - 1) "/").
  - split; [done | by intros [? _]].
  - destruct (indexOf k magic =? 0)%Z; split; try done; by intros [_ ?].
Qed.

Lemma keyType_string_iff k :
  keyType k = string_key <-> ~ delimited k /\ ~ begins_with magic k.
Proof.
  unfold begins_with. rewrite <- prefix_app, <- (indexOf_0 _ _ magic_not_empty).
  rewrite <- keyType_pattern_iff. unfold keyType.
  destruct (char_at_is k 0 "/" && char_at_is k (String.length k - 1) "/").
  - split; [done | by intros [? _]].
  - destruct (indexOf k magic =? 0)%Z; split; try done; by intros [_ ?].
Qed.

Lemma substring_drop_last s :
  String.substring 0 (String.length s - 1) s = drop_last s.
Proof.
  induction s as [|a s IH]; [done|].
  destruct s as [|b s]; [done|].
  replace (String.length (String a (String b s)) - 1)
    with (S (String.length (String b s) - 1)) by (simpl; lia).
  change (String a (String.substring 0 (String.length (String b s) - 1) (String b s))
          = String a (drop_last (String b s))).
  by rewrite IH.
Qed.

Lemma slice_strip_delimiters k :
  slice k 1 (String.length k - 1) = strip_delimiters k.
Proof.
  unfold slice, strip_delimiters. destruct k as [|a k]; [done|].
  cbn [String.length String.substring].
  replace (S (String.length k) - 1 - 1) with (String.length k - 1) by lia.
  apply substring_drop_last.
Qed.

Lemma escape_source_plain n : forall p in_class,
  String.length p <= n -> no_slash_or_terminator p = true ->
  escape_source in_class p = p.
Proof.
  induction n as [|n IH]; intros p in_class Hlen Hp.
  - destruct p; [done | simpl in Hlen; lia].
  - destruct p as [|a rest]; [done|]. cbn [no_slash_or_terminator] in Hp.
    apply andb_true_iff in Hp as [Ha Hrest]. apply andb_true_iff in Ha as [Ha Ha'].
    apply negb_true_iff in Ha, Ha'. simpl in Hlen. cbn [escape_source].
    rewrite Ha, Ha'. cbn [andb].
    destruct (Ascii.eqb a "\").
    + destruct rest as [|b rest']; [done|]. cbn [no_slash_or_terminator] in Hrest.
      apply andb_true_iff in Hrest as [Hb Hrest']. apply andb_true_iff in Hb as [_ Hb].
      apply negb_true_iff in Hb. rewrite Hb. simpl in Hlen.
      by rewrite IH by (lia || done).
    + destruct (Ascii.eqb a "["); [by rewrite IH by (lia || done)|].
      destruct (Ascii.eqb a "]"); by rewrite IH by (lia || done).
Qed.

Lemma EscapeRegExpPattern_plain p :
  needs_no_escape p = true -> EscapeRegExpPattern p = p.
Proof.
  unfold needs_no_escape, EscapeRegExpPattern. intros Hp.
  apply andb_true_iff in Hp as [Hne Hp]. apply negb_true_iff in Hne. rewrite Hne.
  by apply (escape_source_plain (String.length p)).
Qed.

(** C6 (amended): [keyType(k)] is 'pattern' exactly when the first and the
    last character of [k] are both the slash, otherwise 'reference'
    exactly when [k] begins with the magic prefix, otherwise 'string'; for
    a pattern key the regular expression of the key schema is constructed
    from [k] without its first and last character, the text between the
    two slashes, and its source is that text as the engine escapes it: the
    text itself when it is not empty and holds no slash and no line
    terminator, and [(?:)] when it is empty. *)
Theorem keyType_classification_and_pattern_source
    (c : gmap string value) (schema : value) (k : string) :
  (keyType k = pattern <-> delimited k)
  /\ (keyType k = reference <-> ~ delimited k /\ begins_with magic k)
  /\ (keyType k = string_key <-> ~ delimited k /\ ~ begins_with magic k)
  /\ (delimited k ->
      forall re, new_RegExp (slice k 1 (String.length k - 1)) = Return re ->
      re = VRegExp (EscapeRegExpPattern (strip_delimiters k))
      /\ key c schema k =
         (vs ← literals c schema;
          Return (arr [string_node [VStr "pattern"; re]; vs])))
  /\ (forall mid, k = String "/" (mid +:+ "/") -> strip_delimiters k = mid)
  /\ (needs_no_escape (strip_delimiters k) = true ->
      EscapeRegExpPattern (strip_delimiters k) = strip_delimiters k)
  /\ (strip_delimiters k = "" -> EscapeRegExpPattern (strip_delimiters k) = "(?:)").
Proof.
  split; [apply keyType_pattern_iff|].
  split; [apply keyType_reference_iff|].
  split; [apply keyType_string_iff|].
  split; [|split; [|split]].
  - intros Hk re Hre. apply keyType_pattern_iff in Hk.
    unfold key, key_with. rewrite Hk, Hre. unfold new_RegExp in Hre.
    rewrite slice_strip_delimiters in Hre.
    destruct (regexp_ok (strip_delimiters k)); [|discriminate].
    injection Hre as <-. by split.
  - intros mid ->. rewrite <- slice_strip_delimiters. apply slice_delimiters.
  - apply EscapeRegExpPattern_plain.
  - by intros ->.
Qed.

(** ** Reference keys *)

(** A node made by [desc] carries the [toString] of [refHandler]. *)
Lemma S_desc_props c args s :
  S_desc c args = Return s -> exists xs, s = VArr (Props true true false) xs.
Proof.
  unfold S_desc, blessFn, desc_with. rewrite bind_Return. intros (v & Hv & Hs).
  apply bind_Return in Hv as (node & _ & Hv).
  apply bind_Return in Hv as (xs & _ & Hv).
  injection Hv as <-. injection Hs as <-. eauto.
Qed.

Lemma keyType_token rest : keyType (magic +:+ rest) = reference.
Proof.
  apply keyType_reference_iff. split; [|by exists rest].
  apply begins_with_magic_not_delimited. by exists rest.
Qed.

Lemma token_not_length rest v :
  obj_read "length" [(magic +:+ rest, v)] = VUndef.
Proof. reflexivity. Qed.

(** While the counter is below 2^53 tokens are not reused: a later coercion
    leaves the entries of the tokens minted so far as they are. *)
Lemma decimal_inj n n' : decimal n = decimal n' -> n = n'.
Proof.
  unfold decimal. intros H.
  apply (f_equal NilEmpty.uint_of_string) in H. rewrite !NilEmpty.usu in H.
  injection H as H. apply (f_equal Nat.of_uint) in H.
  by rewrite !Unsigned.of_to in H.
Qed.

Lemma plus_one_below n :
  (Z.of_nat n < 9007199254740992)%Z -> plus_one n = S n.
Proof. unfold plus_one. intros H. destruct (Z.ltb_spec (Z.of_nat n) 9007199254740992); [done | lia]. Qed.

Lemma plus_one_reached n :
  (9007199254740992 <= Z.of_nat n)%Z -> plus_one n = n.
Proof. unfold plus_one. intros H. destruct (Z.ltb_spec (Z.of_nat n) 9007199254740992); [lia | done]. Qed.

Lemma ref_toString_keeps_entries this st n :
  n <= idCounter st ->
  (Z.of_nat (idCounter st) < 9007199254740992)%Z ->
  cache (snd (ref_toString this st)) !! (magic +:+ decimal n)
  = cache st !! (magic +:+ decimal n).
Proof.
  intros Hn Hst. cbn [ref_toString _uniqueId snd cache String.eqb magic].
  rewrite (plus_one_below _ Hst).
  apply lookup_insert_ne. intros H. simpl in H.
  injection H as H. apply decimal_inj in H. lia.
Qed.

(** A reference key is resolved by reading the cache. *)
Lemma key_reference c schema k :
  keyType k = reference ->
  key c schema k = (vs ← literals c schema; Return (arr [cache_read c k; vs])).
Proof. intros Hk. unfold key, key_with. by rewrite Hk. Qed.

(** C1: a node [s] made by [desc] is coerced to text by minting a token
    [t] and recording [s] in the cache under [t]; with that entry in the
    cache, [t] used as a key resolves to the pair of [s] itself and of
    [literals] of the supplied value, in [key] and in the object and dict
    schemas built from the one-property object [{[s]: v}]. *)
Theorem reference_key_round_trip
    (c0 : gmap string value) (args : list value) (s : value) (st : state) :
  S_desc c0 args = Return s ->
  exists t st',
    toString_of s st = Some (t, st')
    /\ t = magic +:+ decimal (plus_one (idCounter st))
    /\ cache st' = <[t := s]> (cache st)
    /\ cache st' !! t = Some s
    /\ keyType t = reference
    /\ forall (c : gmap string value) (v : value),
         c !! t = Some s ->
         key c v t = (vs ← literals c v; Return (arr [s; vs]))
         /\ S_object c [VObj [(t, v)]] =
            (vs ← literals c v;
             Return (VArr blessed [VStr "object"; VObj []; arr [s; vs]]))
         /\ literals c (VObj [(t, v)]) =
            (vs ← literals c v;
             Return (VArr blessed [VStr "dict"; VObj []; arr [s; vs]]))
         /\ (forall pair, key c v t = Return pair ->
               curse (arg 0 (elements pair)) = curse s).
Proof.
  intros Hs. destruct (S_desc_props _ _ _ Hs) as (xs & ->).
  set (t := magic +:+ decimal (plus_one (idCounter st))).
  exists t, (State (<[t := VArr (Props true true false) xs]> (cache st))
               (plus_one (idCounter st))).
  split; [reflexivity|]. cbn [cache].
  split; [done|]. split; [done|]. split; [apply lookup_insert_eq|].
  split; [apply keyType_token|].
  intros c v Hc.
  assert (Hkey : key c v t =
            (vs ← literals c v; Return (arr [VArr (Props true true false) xs; vs]))).
  { rewrite key_reference by apply keyType_token. unfold cache_read. by rewrite Hc. }
  split; [done|]. split; [|split].
  - unfold S_object, blessFn, objargs, objargs_with, objargs_map.
    cbn [length Nat.eqb arg nth map_key_with].
    unfold t at 1. rewrite token_not_length. cbn [isArrayLike_length].
    rewrite mapM_cons. cbn [fst snd]. fold (key c v t). rewrite Hkey.
    by destruct (literals c v).
  - cbn [literals length Nat.eqb]. unfold objargs_map. cbn [map_key_with].
    unfold t at 1. rewrite token_not_length. cbn [isArrayLike_length].
    rewrite mapM_cons. cbn [fst snd]. fold (key c v t). rewrite Hkey.
    by destruct (literals c v).
  - intros pair. rewrite Hkey, bind_Return. by intros (vs & _ & [= <-]).
Qed.

(** C2 (amended): for a key classified as a reference for which the cache
    holds no entry, [key] raises no error of its own: it returns the pair
    with undefined in the place of the key schema and [literals] of the
    value as value schema, and throws only what [literals] throws. *)
Theorem unresolved_reference_yields_undefined
    (c : gmap string value) (schema : value) (k : string) :
  keyType k = reference ->
  c !! k = None ->
  key c schema k = (vs ← literals c schema; Return (arr [VUndef; vs])).
Proof.
  intros Hk Hc. rewrite key_reference by done. unfold cache_read. by rewrite Hc.
Qed.

(** ** Idempotence and the blessing invariant *)

Lemma literals_schema c v : isSchema v = true -> literals c v = Return v.
Proof. intros H. rewrite literals_eq. by rewrite H. Qed.

(** C7: [literals] is idempotent: what it returns, it returns again
    unchanged; and a value that is already a schema node is returned as it
    is. *)
Theorem literals_idempotent (c : gmap string value) (x : value) :
  (forall y, literals c x = Return y -> literals c y = Return y)
  /\ (isSchema x = true -> literals c x = Return x).
Proof.
  split.
  - intros y Hy. apply literals_schema. by eapply literals_isSchema.
  - apply literals_schema.
Qed.

Lemma call_to_isSchema f args v : call_to f args = Return v -> isSchema v = true.
Proof.
  destruct f as [| | | | | | |p s| |]; try discriminate. simpl.
  destruct (p_to p); [|discriminate].
  apply blessFn_isSchema, to_body_array.
Qed.

(** C9: every node returned by a builder offered to the consumer, by the
    method [to] of a function node and by [literals] carries the marker;
    [isSchema] holds exactly of the arrays that carry it. *)
Theorem blessing_invariant (c : gmap string value) (v : value) :
  (built c v -> isSchema v = true)
  /\ (isSchema v = true <-> exists p xs, v = VArr p xs /\ p_schema p = true).
Proof.
  split; [|apply isSchema_array].
  destruct 1 as [args v H|args v H|args v H|args v H|args v H|args v H|args v H
                |args v H|args v H|args v H|args v H|v H|v H|schemas f args v _ H
                |x v H].
  - revert H. apply blessFn_isSchema, string_body_array.
  - revert H. apply blessFn_isSchema, number_body_array.
  - revert H. apply blessFn_isSchema, or_with_array.
  - revert H. apply blessFn_isSchema, array_with_array.
  - revert H. apply blessFn_isSchema, arrayOf_with_array.
  - revert H. apply blessFn_isSchema, objargs_with_array.
  - revert H. apply blessFn_isSchema, objargs_with_array.
  - revert H. apply blessFn_isSchema, objargs_with_array.
  - revert H. apply blessFn_isSchema, fn_with_array.
  - revert H. apply blessFn_isSchema, desc_with_array.
  - revert H. apply blessFn_isSchema, role_body_array.
  - by injection H as <-.
  - by injection H as <-.
  - by eapply call_to_isSchema.
  - by eapply literals_isSchema.
Qed.

(** ** Function nodes *)

Lemma S_fn_eq c schemas :
  S_fn c schemas =
  (xs ← mapM (literals c) schemas;
   Return (VArr (Props true false true)
             (VStr "function" :: VObj [] :: VNull :: xs))).
Proof. unfold S_fn, blessFn, fn_with. by destruct (mapM (literals c) schemas). Qed.

Lemma call_to_eq p s args :
  p_to p = true ->
  call_to (VArr p s) args = Return (VArr blessed (take 2 s ++ arg 0 args :: drop 3 s)).
Proof. intros Hp. simpl. by rewrite Hp. Qed.

(** C4 (amended): [fn] returns the node [['function', {}, null, ...]] with
    each argument coerced by [literals] in order and with the method [to];
    [f.to(r)] returns a new blessed node that differs from [f] in the
    return slot only, which holds [r] itself, not coerced; that is
    [literals(r)] when [r] is already a schema node. *)
Theorem fn_and_to (c : gmap string value) (schemas : list value) :
  S_fn c schemas =
    (xs ← mapM (literals c) schemas;
     Return (VArr (Props true false true)
               (VStr "function" :: VObj [] :: VNull :: xs)))
  /\ forall f, S_fn c schemas = Return f ->
     exists xs,
       f = VArr (Props true false true) (VStr "function" :: VObj [] :: VNull :: xs)
       /\ Forall2 (fun x y => literals c x = Return y) schemas xs
       /\ forall r,
            call_to f [r] =
              Return (VArr blessed (VStr "function" :: VObj [] :: r :: xs))
            /\ (isSchema r = true -> literals c r = Return r).
Proof.
  split; [apply S_fn_eq|]. intros f. rewrite S_fn_eq, bind_Return.
  intros (xs & Hxs & [= <-]). exists xs. split; [done|].
  split; [by apply mapM_Return|]. intros r. split; [done|apply literals_schema].
Qed.

(** C10: the node [f.to(r)] has no method [to] of its own: calling [to]
    on it throws. *)
Theorem to_result_has_no_to
    (c : gmap string value) (schemas : list value) (f : value) (args : list value) :
  S_fn c schemas = Return f ->
  (exists p s, f = VArr p s /\ p_to p = true)
  /\ exists s', call_to f args = Return (VArr blessed s')
                /\ p_to blessed = false
                /\ forall args', call_to (VArr blessed s') args' = Throw TypeError.
Proof.
  rewrite S_fn_eq, bind_Return. intros (xs & _ & [= <-]). split; [by eauto|].
  eexists. split; [by apply call_to_eq|]. by split.
Qed.

(** ** Objects and the merge [m] *)

Lemma obj_get_None k o : obj_get k o = None <-> ~ In k (List.map fst o).
Proof.
  induction o as [|[k' v] o IH]; simpl; [tauto|].
  destruct (String.eqb_spec k' k) as [->|Hne].
  - split; [discriminate | tauto].
  - rewrite IH. tauto.
Qed.

Lemma obj_get_set k k' v o :
  obj_get k (obj_set k' v o) = if String.eqb k' k then Some v else obj_get k o.
Proof.
  induction o as [|[k0 v0] o IH]; simpl.
  - by destruct (String.eqb_spec k' k).
  - destruct (String.eqb_spec k0 k') as [->|Hne]; simpl.
    + by destruct (String.eqb_spec k' k).
    + rewrite IH. destruct (String.eqb_spec k0 k) as [->|Hne']; [|done].
      by destruct (String.eqb_spec k' k) as [->|].
Qed.

Lemma obj_set_keys k k' v o :
  In k (List.map fst (obj_set k' v o)) <-> k = k' \/ In k (List.map fst o).
Proof.
  induction o as [|[k0 v0] o IH]; simpl; [intuition|].
  destruct (String.eqb_spec k0 k') as [->|Hne]; simpl; [intuition|].
  rewrite IH. intuition.
Qed.

Lemma obj_set_distinct k v o : distinct_keys o -> distinct_keys (obj_set k v o).
Proof.
  unfold distinct_keys. induction o as [|[k0 v0] o IH]; simpl.
  - intros _. apply NoDup_cons_2; [apply not_elem_of_nil | apply NoDup_nil_2].
  - rewrite !NoDup_cons, !list_elem_of_In. intros [Hk0 Ho].
    destruct (String.eqb_spec k0 k) as [->|Hne]; simpl.
    + by rewrite NoDup_cons, list_elem_of_In.
    + rewrite NoDup_cons, list_elem_of_In, obj_set_keys. intuition.
Qed.

Lemma assign_distinct es o : distinct_keys o -> distinct_keys (assign es o).
Proof.
  revert o. induction es as [|[k v] es IH]; intros o Ho; [done|].
  apply IH. by apply obj_set_distinct.
Qed.

Lemma obj_get_assign k es o :
  distinct_keys es ->
  obj_get k (assign es o) =
  match obj_get k es with Some v => Some v | None => obj_get k o end.
Proof.
  unfold distinct_keys. revert o. induction es as [|[k' v] es IH]; intros o; [done|].
  simpl. rewrite NoDup_cons, list_elem_of_In. intros [Hk' Hes].
  change (assign ((k', v) :: es) o) with (assign es (obj_set k' v o)).
  rewrite IH by done. rewrite obj_get_set.
  destruct (String.eqb_spec k' k) as [->|Hne]; [|done].
  apply obj_get_None in Hk'. by rewrite Hk'.
Qed.

Lemma obj_get_pick k o predicate :
  distinct_keys o ->
  obj_get k (_pick o predicate) =
  match obj_get k o with
  | Some v => if predicate v then Some v else None
  | None => None
  end.
Proof.
  unfold distinct_keys, _pick. induction o as [|[k' v] o IH]; [done|].
  simpl. rewrite NoDup_cons, list_elem_of_In. intros [Hk' Ho].
  destruct (String.eqb_spec k' k) as [->|Hne].
  - destruct (predicate v); simpl.
    + by rewrite String.eqb_refl.
    + rewrite IH by done. apply obj_get_None in Hk'. by rewrite Hk'.
  - destruct (predicate v); simpl; [|by apply IH].
    destruct (String.eqb_spec k' k); [done | by apply IH].
Qed.

(** What [m] leaves of a base object and the options merged over it. *)
Lemma m_lookup k base opts :
  distinct_keys base -> distinct_keys opts ->
  obj_get k (m [VObj base; VObj opts]) =
  defined (match obj_get k opts with Some v => Some v | None => obj_get k base end).
Proof.
  intros Hbase Hopts. unfold m, _extend. cbn [fold_left _allKeys].
  rewrite obj_get_pick.
  - rewrite !obj_get_assign by done.
    destruct (obj_get k opts) as [[]|]; try done.
    by destruct (obj_get k base) as [[]|].
  - apply assign_distinct, assign_distinct. apply NoDup_nil_2.
Qed.

Lemma defined_not_undefined o : defined o <> Some VUndef.
Proof. by destruct o as [[]|]. Qed.

(** C5 (amended): on a schema node [s], [desc(t, d, s)] returns a node with
    the tag and the params of [s], whose options are [{title: t,
    description: d}] overridden by the options of [s] itself, without the
    properties whose value is undefined; when [s] has no title and no
    description of its own they are [t] and [d]; the form [desc(d, s)]
    supplies no title. *)
Theorem desc_merges_metadata
    (c : gmap string value) (t d : value)
    (p : props) (type : value) (opts : object) (rest : list value) :
  let s := VArr p (type :: VObj opts :: rest) in
  isSchema s = true ->
  distinct_keys opts ->
  exists opts3 opts2,
    S_desc c [t; d; s] = Return (VArr (Props true true false) (type :: VObj opts3 :: rest))
    /\ S_desc c [d; s] = Return (VArr (Props true true false) (type :: VObj opts2 :: rest))
    /\ (forall k,
          obj_get k opts3 =
          defined (match obj_get k opts with
                   | Some v => Some v
                   | None => obj_get k [("title", t); ("description", d)]
                   end))
    /\ (forall k,
          obj_get k opts2 =
          defined (match obj_get k opts with
                   | Some v => Some v
                   | None => obj_get k [("description", d)]
                   end))
    /\ (forall k, obj_get k opts3 <> Some VUndef /\ obj_get k opts2 <> Some VUndef)
    /\ (obj_get "title" opts = None -> obj_get "description" opts = None ->
        obj_get "title" opts3 = defined (Some t)
        /\ obj_get "description" opts3 = defined (Some d)
        /\ obj_get "title" opts2 = None
        /\ obj_get "description" opts2 = defined (Some d)).
Proof.
  intros s Hs Hopts.
  assert (Hbase : forall x, distinct_keys [("title", x); ("description", d)]).
  { intros x. unfold distinct_keys. simpl. rewrite !NoDup_cons, !list_elem_of_In.
    simpl. intuition (try discriminate). apply NoDup_nil_2. }
  eexists _, _. split; [|split].
  - unfold S_desc, blessFn, desc_with. cbn [length Nat.eqb arg nth].
    rewrite (literals_schema _ _ Hs). reflexivity.
  - unfold S_desc, blessFn, desc_with. cbn [length Nat.eqb arg nth].
    rewrite (literals_schema _ _ Hs). reflexivity.
  - cbn [arg nth]. split; [|split; [|split]].
    + intros k. by apply m_lookup.
    + intros k. rewrite m_lookup by done.
      destruct (obj_get k opts); [done|]. cbn [obj_get].
      by destruct (String.eqb_spec "title" k) as [<-|].
    + intros k. rewrite !m_lookup by done. split; apply defined_not_undefined.
    + intros Ht Hd. rewrite !m_lookup by done. by rewrite Ht, Hd.
Qed.

(** ** The error of [literals] *)

Lemma bless_array_no_Throw v e : _isArray v = true -> bless v <> Throw e.
Proof. by destruct v. Qed.

Lemma unsupported_template v :
  unsupported v = true <-> (exists text, template v = Some text) \/ is_symbol v = true.
Proof.
  destruct v as [| |b|x|s|s|n t|p xs|es|d]; simpl; split;
    try discriminate; try (by intros [[? [=]]|[=]]);
    try (intros _; left; by eexists); try (intros _; by right).
  unfold unsupported. simpl. by rewrite andb_false_r.
Qed.

Lemma template_not_symbol v text : template v = Some text -> is_symbol v = false.
Proof. by destruct v. Qed.

(** An [Error] thrown by [key] is one thrown by [literals] on the value. *)
Lemma key_with_Error lit c schema k msg :
  key_with lit c schema k = Throw (Error msg) -> lit schema = Throw (Error msg).
Proof.
  unfold key_with, new_RegExp. destruct (keyType k).
  - destruct (regexp_ok _); [|discriminate]. cbn [mbind completion_bind].
    rewrite S_string_eq. cbn [mbind completion_bind].
    by destruct (lit schema).
  - by destruct (lit schema).
  - rewrite S_string_eq. cbn [mbind completion_bind]. by destruct (lit schema).
Qed.

Lemma map_key_by_index_Error len msg : map_key_by_index len <> Throw (Error msg).
Proof. unfold map_key_by_index. by repeat case_match. Qed.

Lemma map_key_by_index_nat_Error len msg : map_key_by_index_nat len <> Throw (Error msg).
Proof. unfold map_key_by_index_nat. by case_match. Qed.

Lemma objargs_map_Error lit c type es msg :
  (node ← objargs_map lit c type (VObj es); bless node) = Throw (Error msg) ->
  exists k x, In (k, x) es /\ lit x = Throw (Error msg).
Proof.
  rewrite bind_Throw. intros [H | (node & Hnode & H)].
  - unfold objargs_map in H. apply bind_Throw in H as [H | (ps & _ & [=])].
    cbn [map_key_with] in H. case_match.
    + case_match; try discriminate. by apply map_key_by_index_Error in H.
    + apply mapM_Throw in H as ([k x] & Hin & H). apply key_with_Error in H. eauto.
  - apply objargs_map_array in Hnode. by apply bless_array_no_Throw in H.
Qed.

Lemma literals_Error_within c v msg :
  literals c v = Throw (Error msg) ->
  exists u text,
    within u v /\ unsupported u = true /\ template u = Some text
    /\ Error msg = unknown text.
Proof.
  revert msg. induction v as [| |b|x|s|s|n t|p xs IH|es IH|d] using value_nested_ind;
    intros msg H.
  - injection H as <-. exists VUndef, "undefined". by split; [apply within_here|].
  - injection H as <-. exists VNull, "null". by split; [apply within_here|].
  - injection H as <-. exists (VBool b), (if b then "true" else "false").
    by split; [apply within_here|].
  - by rewrite literals_eq, S_number_eq in H.
  - by rewrite literals_eq, S_string_eq in H.
  - cbn [literals] in H. apply bind_Throw in H as [H | (node & Hnode & H)].
    + discriminate.
    + apply objargs_map_array in Hnode. by apply bless_array_no_Throw in H.
  - injection H as <-. exists (VFun n t), t. by split; [apply within_here|].
  - cbn [literals] in H. destruct (p_schema p); [discriminate|].
    assert (Hx : exists x, In x xs /\ literals c x = Throw (Error msg)).
    { destruct xs as [|x [|y xs]].
      - discriminate.
      - apply bind_Throw in H as [H | (node & Hnode & H)].
        + unfold arrayOf_with in H. apply bind_Throw in H as [H | (? & _ & [=])].
          exists x. split; [by left | done].
        + apply arrayOf_with_array in Hnode. by apply bless_array_no_Throw in H.
      - apply bind_Throw in H as [H | (node & Hnode & H)].
        + unfold array_with in H. apply bind_Throw in H as [H | (? & _ & [=])].
          by apply mapM_Throw in H.
        + apply array_with_array in Hnode. by apply bless_array_no_Throw in H. }
    destruct Hx as (x & Hin & Hx). rewrite List.Forall_forall in IH.
    destruct (IH x Hin msg Hx) as (u & text & Hu & Hrest).
    exists u, text. split; [by eapply within_elem | done].
  - cbn [literals] in H. apply objargs_map_Error in H as (k & x & Hin & Hx).
    rewrite List.Forall_forall in IH.
    destruct (IH (k, x) Hin msg Hx) as (u & text & Hu & Hrest).
    exists u, text. split; [by eapply within_entry | done].
  - discriminate.
Qed.


(** ** Tuples *)

(** [array] returns the tuple node itself, with no node around it. *)
Lemma S_array_eq c schemas :
  S_array c schemas =
  (xs ← mapM (literals c) schemas;
   Return (VArr blessed (VStr "tuple" :: VObj [] :: xs))).
Proof. unfold S_array, blessFn, array_with. by destruct (mapM (literals c) schemas). Qed.

(** * Further properties *)

(** ** Mapping in the completion monad *)

Lemma mapM_length {A B} (f : A -> completion B) l k :
  mapM f l = Return k -> length k = length l.
Proof. rewrite mapM_Return. intros H. symmetry. by eapply Forall2_length. Qed.

Lemma mapM_returns {A B} (f : A -> completion B) l :
  (exists k, mapM f l = Return k) <-> Forall (fun x => exists y, f x = Return y) l.
Proof.
  induction l as [|x l IH].
  - split; [constructor | by exists []].
  - rewrite mapM_cons, Forall_cons, <- IH. split.
    + intros (k & Hk). apply bind_Return in Hk as (y & Hy & Hk).
      apply bind_Return in Hk as (k' & Hk' & _). eauto.
    + intros ((y & Hy) & (k' & Hk')). exists (y :: k'). by rewrite Hy, Hk'.
Qed.

(** The error of a mapping is the error of the first element that throws. *)
Lemma mapM_Throw_first {A B} (f : A -> completion B) l e :
  mapM f l = Throw e
  <-> exists before x after,
        l = before ++ x :: after
        /\ Forall (fun x => exists y, f x = Return y) before
        /\ f x = Throw e.
Proof.
  induction l as [|x l IH].
  - split; [discriminate|]. by intros ([|??] & ? & ? & [=] & _).
  - rewrite mapM_cons. destruct (f x) as [y|e'] eqn:Hx; cbn [mbind completion_bind].
    + split.
      * intros H. apply bind_Throw in H as [H | (k & _ & [=])].
        apply IH in H as (before & x' & after & -> & Hb & Hx').
        exists (x :: before), x', after. split; [done|].
        split; [constructor; eauto | done].
      * intros ([|x0 before] & x' & after & Hl & Hb & Hx'); injection Hl as -> ->.
        { congruence. }
        apply Forall_cons in Hb as [_ Hb].
        assert (H : mapM f (before ++ x' :: after) = Throw e) by (apply IH; eauto 6).
        by rewrite H.
    + split.
      * intros [= ->]. exists [], x, l. by repeat split.
      * intros ([|x0 before] & x' & after & Hl & Hb & Hx'); injection Hl as -> ->.
        { congruence. }
        apply Forall_cons in Hb as [(y & Hy) _]. congruence.
Qed.

(** Schema nodes are mapped to themselves. *)
Lemma mapM_literals_nodes c xs :
  Forall (fun x => isSchema x = true) xs -> mapM (literals c) xs = Return xs.
Proof.
  intros H. apply mapM_Return. induction H; constructor; [by apply literals_schema | done].
Qed.

(** ** The leaf builders *)

(** X1: [string] and [number] never throw and look at their first argument
    only; an argument of another kind is ignored without notice, so
    [string(5)] is [string()] and [number('5')] is [number()]; [number]
    takes every array for an interval, whatever it holds. *)
Theorem leaf_builders_ignore_other_arguments (args : list value) :
  (exists val, S_string args = Return (string_node val)
               /\ S_string args = S_string [arg 0 args]
               /\ (val = [] <-> _isString (arg 0 args) = false
                                /\ _isRegExp (arg 0 args) = false))
  /\ (exists val, S_number args = Return (number_node val)
                  /\ S_number args = S_number [arg 0 args]
                  /\ (val = [] <-> _isArray (arg 0 args) = false
                                   /\ _isNumber (arg 0 args) = false)
                  /\ (forall p xs, arg 0 args = VArr p xs ->
                        val = [VStr "interval"; VArr p xs])).
Proof.
  split.
  - eexists. split; [apply S_string_eq|]. split; [by rewrite !S_string_eq|].
    destruct (arg 0 args); simpl; split; try done; by intros [??].
  - eexists. split; [apply S_number_eq|]. split; [by rewrite !S_number_eq|].
    split.
    + destruct (arg 0 args); simpl; split; try done; by intros [??].
    + by intros p xs ->.
Qed.

(** ** [or] *)

Lemma S_or_eq c schemas :
  S_or c schemas =
  (xs ← mapM (literals c) schemas; Return (VArr blessed (VStr "or" :: VObj [] :: xs))).
Proof. unfold S_or, blessFn, or_with. by destruct (mapM (literals c) schemas). Qed.

(** X2: [or] coerces its arguments one by one: it returns exactly when each of
    them is coerced, with one child per argument in the order given and no
    child removed; it throws what the first argument that cannot be coerced
    throws; schema nodes become the children as they are. *)
Theorem or_coerces_in_order (c : gmap string value) (schemas : list value) :
  (forall v, S_or c schemas = Return v
     <-> exists xs, v = VArr blessed (VStr "or" :: VObj [] :: xs)
                    /\ Forall2 (fun x y => literals c x = Return y) schemas xs)
  /\ (forall e, S_or c schemas = Throw e
      <-> exists before x after,
            schemas = before ++ x :: after
            /\ Forall (fun x => exists y, literals c x = Return y) before
            /\ literals c x = Throw e)
  /\ (Forall (fun x => isSchema x = true) schemas ->
      S_or c schemas = Return (VArr blessed (VStr "or" :: VObj [] :: schemas))).
Proof.
  rewrite S_or_eq. split; [|split].
  - intros v. rewrite bind_Return. split.
    + intros (xs & Hxs & [= <-]). exists xs. split; [done | by apply mapM_Return].
    + intros (xs & -> & Hxs). exists xs. split; [by apply mapM_Return | done].
  - intros e. rewrite bind_Throw, <- mapM_Throw_first. split; [|by left].
    by intros [H | (xs & _ & [=])].
  - intros H. by rewrite mapM_literals_nodes.
Qed.

(** ** Array literals and [arrayOf] *)

Lemma S_arrayOf_eq c args :
  S_arrayOf c args =
  (x ← literals c (arg 0 args); Return (VArr blessed [VStr "list"; VObj []; x])).
Proof. unfold S_arrayOf, blessFn, arrayOf_with. by destruct (literals c (arg 0 args)). Qed.

(** X3: [arrayOf] coerces its first argument and ignores the others; without
    an argument it throws the error of [literals] for undefined; the array
    literal [[x]] is a shorthand for [arrayOf(x)]. *)
Theorem arrayOf_uses_first_argument (c : gmap string value) (args : list value) :
  S_arrayOf c args =
    (x ← literals c (arg 0 args); Return (VArr blessed [VStr "list"; VObj []; x]))
  /\ S_arrayOf c args = S_arrayOf c [arg 0 args]
  /\ S_arrayOf c [] = Throw (unknown "undefined")
  /\ (forall x, literals c (arr [x]) = S_arrayOf c [x]).
Proof.
  split; [apply S_arrayOf_eq|]. split; [by rewrite !S_arrayOf_eq|]. split; [done|].
  intros x. by rewrite literals_eq.
Qed.

(** X4: An array that is not a schema node is coerced to a list schema when it
    has exactly one element and to a tuple schema otherwise, with one child
    per element in order; the empty array gives the tuple without
    children. *)
Theorem array_literal_list_or_tuple
    (c : gmap string value) (p : props) (xs : list value) (v : value) :
  p_schema p = false ->
  literals c (VArr p xs) = Return v ->
  (length xs = 1
   /\ exists x', literals c (arg 0 xs) = Return x'
                 /\ v = VArr blessed [VStr "list"; VObj []; x'])
  \/ (length xs <> 1
      /\ exists xs', Forall2 (fun x y => literals c x = Return y) xs xs'
                     /\ v = VArr blessed (VStr "tuple" :: VObj [] :: xs')).
Proof.
  intros Hp. rewrite literals_eq. cbn [isSchema _isString _isNumber _isArray elements].
  rewrite Hp. destruct (Nat.eqb_spec (length xs) 1) as [Hlen|Hlen].
  - rewrite S_arrayOf_eq, bind_Return. intros (x' & Hx' & [= <-]). left. eauto.
  - rewrite S_array_eq, bind_Return. intros (xs' & Hxs' & [= <-]). right.
    split; [done|]. exists xs'. split; [by apply mapM_Return | done].
Qed.

(** ** [partitionN] *)

Lemma partitionN_take coll n k :
  concat (List.map (fun i => array_slice coll (i * n) ((i + 1) * n)) (seq 0 k))
  = take (k * n) coll.
Proof.
  induction k as [|k IH]; [done|].
  rewrite seq_S, List.map_app, concat_app, IH. cbn [List.map concat Nat.add].
  rewrite app_nil_r. unfold array_slice.
  replace ((k + 1) * n - k * n) with n by lia.
  rewrite take_take_drop. f_equal. lia.
Qed.

Lemma chunks_cover len n : 0 < n -> len <= (len + n - 1) / n * n.
Proof.
  intros Hn. pose proof (Nat.div_mod_eq (len + n - 1) n) as H.
  pose proof (Nat.mod_upper_bound (len + n - 1) n) as H'. nia.
Qed.

Lemma chunk_starts_inside len n i : 0 < n -> i < (len + n - 1) / n -> i * n < len.
Proof.
  intros Hn Hi. pose proof (Nat.div_mod_eq (len + n - 1) n) as H. nia.
Qed.

(** X5: [partitionN] cuts the collection into consecutive chunks and loses
    nothing: the chunks put together are the collection, there are as many
    as the length divided by [n] rounded up, none is empty or longer than
    [n], and all but the last have exactly [n] elements. *)
Theorem partitionN_chunks (coll : list value) (n : nat) :
  0 < n ->
  concat (partitionN coll n) = coll
  /\ length (partitionN coll n) = (length coll + n - 1) / n
  /\ Forall (fun chunk => 1 <= length chunk <= n) (partitionN coll n)
  /\ (forall i, (i + 1) * n <= length coll ->
        length (nth i (partitionN coll n) []) = n).
Proof.
  intros Hn. unfold partitionN. split; [|split; [|split]].
  - rewrite partitionN_take. apply take_ge. by apply chunks_cover.
  - by rewrite length_map, length_seq.
  - apply List.Forall_forall. intros chunk Hin.
    apply in_map_iff in Hin as (i & <- & Hi). apply in_seq in Hi.
    unfold array_slice. rewrite length_take, length_drop.
    assert (i * n < length coll) by (apply chunk_starts_inside; lia). lia.
  - intros i Hi.
    assert (Hk : i < (length coll + n - 1) / n).
    { apply Nat.div_le_lower_bound; lia. }
    erewrite nth_indep by (by rewrite length_map, length_seq).
    rewrite (map_nth (fun i => array_slice coll (i * n) ((i + 1) * n)) _ 0).
    rewrite seq_nth by done. unfold array_slice.
    rewrite length_take, length_drop. lia.
Qed.

(** ** [object] and [dict] *)

Lemma mapM_ext_eq {A B} (f g : A -> completion B) l :
  (forall x, f x = g x) -> mapM f l = mapM g l.
Proof.
  intros H. induction l as [|x l IH]; [done|]. by rewrite !mapM_cons, H, IH.
Qed.

Lemma mapM_map {A B C} (f : B -> completion C) (g : A -> B) l :
  mapM f (List.map g l) = mapM (fun x => f (g x)) l.
Proof. induction l as [|x l IH]; [done|]. cbn [List.map]. by rewrite !mapM_cons, IH. Qed.

Lemma mapM_app {A B} (f : A -> completion B) l1 l2 :
  mapM f (l1 ++ l2) = (k1 ← mapM f l1; k2 ← mapM f l2; Return (k1 ++ k2)).
Proof.
  induction l1 as [|x l1 IH].
  - cbn [app]. change (mapM f []) with (Return (@nil B)). cbn [mbind completion_bind].
    by destruct (mapM f l2).
  - cbn [app]. rewrite !mapM_cons, IH. destruct (f x); [|done].
    cbn [mbind completion_bind]. destruct (mapM f l1); [|done].
    cbn [mbind completion_bind]. by destruct (mapM f l2).
Qed.

(** The first chunk is the first [n] elements, the others are the chunks
    of the rest. *)
Lemma partitionN_cons coll n :
  0 < n -> coll <> [] ->
  partitionN coll n = take n coll :: partitionN (drop n coll) n.
Proof.
  intros Hn Hcoll. unfold partitionN.
  assert (Hlen : 0 < length coll) by (destruct coll; [done | simpl; lia]).
  rewrite length_drop.
  replace ((length coll + n - 1) / n) with (S ((length coll - n + n - 1) / n)).
  - rewrite <- cons_seq. cbn [List.map]. f_equal.
    + unfold array_slice. replace ((0 + 1) * n - 0 * n) with n by lia.
      by replace (0 * n) with 0 by lia.
    + rewrite <- seq_shift, List.map_map. apply List.map_ext. intros i.
      unfold array_slice. rewrite drop_drop.
      replace ((S i + 1) * n - S i * n) with ((i + 1) * n - i * n) by lia.
      by replace (n + i * n) with (S i * n) by lia.
  - destruct (Nat.le_gt_cases n (length coll)) as [Hle|Hgt].
    + replace (length coll + n - 1) with ((length coll - n + n - 1) + 1 * n) by lia.
      rewrite Nat.div_add by lia. lia.
    + replace (length coll - n + n - 1) with (n - 1) by lia.
      rewrite (Nat.div_small (n - 1)) by lia.
      apply Nat.div_unique with (r := length coll - 1); lia.
Qed.

Lemma partitionN_pairs (kvs : list (value * value)) (tail : list value) :
  length tail <= 1 ->
  partitionN (flat_map (fun kv => [fst kv; snd kv]) kvs ++ tail) 2
  = List.map (fun kv => [fst kv; snd kv]) kvs
    ++ match tail with [] => [] | _ => [tail] end.
Proof.
  intros Htail. induction kvs as [|[k v] kvs IH].
  - destruct tail as [|x [|??]]; [done | done | simpl in Htail; lia].
  - cbn [flat_map app List.map fst snd]. rewrite partitionN_cons by (done || lia).
    cbn [take drop]. rewrite take_0, drop_0. by rewrite IH.
Qed.

Lemma S_object_eq c args :
  S_object c args = (node ← objargs c "object" args; bless node).
Proof. reflexivity. Qed.

(** The tag is the only thing [objargs] does with its first argument. *)
Lemma objargs_tag c args :
  exists pairs : completion (list value),
    forall type, objargs c type args
                 = (ps ← pairs; Return (arr (VStr type :: VObj [] :: ps))).
Proof.
  unfold objargs, objargs_with, objargs_map, objargs_pairs.
  destruct (length args =? 1)%nat; eexists; intros type; reflexivity.
Qed.

(** X6: [dict], alias [objectOf], and [object] do the same and differ in the
    tag of the node only: they throw the same errors and return the same
    pairs. *)
Theorem dict_is_object_with_another_tag (c : gmap string value) (args : list value) :
  S_objectOf c args = S_dict c args
  /\ (forall e, S_dict c args = Throw e <-> S_object c args = Throw e)
  /\ (forall p rest,
        S_dict c args = Return (VArr p (VStr "dict" :: rest))
        <-> S_object c args = Return (VArr p (VStr "object" :: rest))).
Proof.
  split; [done|]. unfold S_dict, S_object, blessFn.
  destruct (objargs_tag c args) as (pairs & Hpairs). rewrite !Hpairs.
  destruct pairs as [ps|e']; cbn [mbind completion_bind bless]; split.
  - intros e. split; discriminate.
  - intros p rest. split; intros [= <- <-]; reflexivity.
  - done.
  - intros p rest. split; discriminate.
Qed.

(** X7: Called with alternating keys and values, [object] pairs them in the
    order given and coerces key and value alike with [literals]: a key
    given as text becomes an exact-value string schema whatever its
    characters, the key classifier is not consulted.  A last argument
    without a partner makes a last pair of one element. *)
Theorem object_of_alternating_arguments
    (c : gmap string value) (kvs : list (value * value)) :
  let coerce_pair := fun kv : value * value =>
        k ← literals c (fst kv); v ← literals c (snd kv); Return (arr [k; v]) in
  S_object c (flat_map (fun kv => [fst kv; snd kv]) kvs)
  = (ps ← mapM coerce_pair kvs;
     Return (VArr blessed (VStr "object" :: VObj [] :: ps)))
  /\ (forall k v,
        S_object c [VStr k; v]
        = (v' ← literals c v;
           Return (VArr blessed
                     [VStr "object"; VObj [];
                      arr [string_node [VStr "value"; VStr k]; v']])))
  /\ (forall x, kvs <> [] ->
        S_object c (flat_map (fun kv => [fst kv; snd kv]) kvs ++ [x])
        = (ps ← mapM coerce_pair kvs;
           x' ← literals c x;
           Return (VArr blessed (VStr "object" :: VObj [] :: ps ++ [arr [x']])))).
Proof.
  intros coerce_pair.
  assert (Hchunk : forall kv : value * value,
            (xs ← mapM (literals c) [fst kv; snd kv]; Return (arr xs)) = coerce_pair kv).
  { intros [k v]. unfold coerce_pair. cbn [fst snd]. rewrite !mapM_cons.
    destruct (literals c k); [|done]. cbn [mbind completion_bind].
    by destruct (literals c v). }
  assert (Hlen : forall tail : list value,
            tail = [] \/ kvs <> [] ->
            (length (flat_map (fun kv => [fst kv; snd kv]) kvs ++ tail) =? 1)%nat = false).
  { intros tail Htail. apply Nat.eqb_neq. rewrite List.length_app.
    destruct kvs as [|kv kvs]; [|simpl; lia]. by destruct Htail as [->|]. }
  split; [|split].
  - rewrite S_object_eq. unfold objargs, objargs_with, objargs_pairs.
    pose proof (Hlen [] (or_introl eq_refl)) as Hl. rewrite app_nil_r in Hl. rewrite Hl.
    pose proof (partitionN_pairs kvs [] (Nat.le_0_l 1)) as Hp.
    rewrite !app_nil_r in Hp. rewrite Hp, mapM_map.
    rewrite (mapM_ext_eq _ coerce_pair) by apply Hchunk.
    by destruct (mapM coerce_pair kvs).
  - intros k v. rewrite S_object_eq. unfold objargs, objargs_with, objargs_pairs.
    cbn [length Nat.eqb]. rewrite (partitionN_cons [VStr k; v]) by (done || lia).
    cbn [take drop]. change (partitionN [] 2) with (@nil (list value)).
    rewrite !mapM_cons. change (literals c (VStr k)) with (S_string [VStr k]).
    rewrite S_string_eq. cbn [mbind completion_bind arg nth _isString].
    by destruct (literals c v).
  - intros x Hkvs. rewrite S_object_eq. unfold objargs, objargs_with, objargs_pairs.
    rewrite (Hlen [x]) by (by right).
    rewrite (partitionN_pairs kvs [x]) by (simpl; lia).
    rewrite mapM_app, mapM_map.
    rewrite (mapM_ext_eq _ coerce_pair) by apply Hchunk.
    destruct (mapM coerce_pair kvs); [|done]. cbn [mbind completion_bind].
    rewrite !mapM_cons. by destruct (literals c x).
Qed.

(** X8: Called with one mapping that underscore does not take for an array,
    [object] makes one pair per property, in the order of enumeration,
    each resolved by [key]; [literals] does the same under the tag 'dict'
    for a mapping of one property and 'object' for any other, the empty
    mapping included. *)
Theorem object_of_mapping (c : gmap string value) (es : object) :
  isArrayLike_length (obj_read "length" es) = false ->
  S_object c [VObj es]
  = (ps ← mapM (fun e => key c (snd e) (fst e)) es;
     Return (VArr blessed (VStr "object" :: VObj [] :: ps)))
  /\ literals c (VObj es)
     = (ps ← mapM (fun e => key c (snd e) (fst e)) es;
        Return (VArr blessed
                  (VStr (if (length es =? 1)%nat then "dict" else "object")
                   :: VObj [] :: ps)))
  /\ (forall v, S_object c [VObj es] = Return v ->
        exists ps, v = VArr blessed (VStr "object" :: VObj [] :: ps)
                   /\ Forall2 (fun e pair => key c (snd e) (fst e) = Return pair) es ps)
  /\ literals c (VObj []) = Return (VArr blessed [VStr "object"; VObj []]).
Proof.
  intros Hlen.
  assert (Hobj : S_object c [VObj es]
                 = (ps ← mapM (fun e => key c (snd e) (fst e)) es;
                    Return (VArr blessed (VStr "object" :: VObj [] :: ps)))).
  { rewrite S_object_eq. unfold objargs, objargs_with, objargs_map.
    cbn [length Nat.eqb arg nth map_key_with]. rewrite Hlen.
    fold (key c). by destruct (mapM _ es). }
  split; [done|]. split; [|split; [|done]].
  - cbn [literals]. unfold objargs_map. cbn [map_key_with]. rewrite Hlen.
    fold (key c). by destruct (mapM _ es).
  - intros v. rewrite Hobj, bind_Return. intros (ps & Hps & [= <-]).
    exists ps. split; [done | by apply mapM_Return].
Qed.

(** ** [key] *)

(** X9: [key] returns a pair of two elements whose second is [literals] of the
    value.  A key that is neither a pattern nor a reference gives the
    exact-value string schema of the key.  A pattern key whose text is not
    a regular expression throws the SyntaxError of the engine, before the
    value is looked at; apart from that [key] throws only what [literals]
    throws on the value. *)
Theorem key_pairs_and_errors (c : gmap string value) (schema : value) (k : string) :
  (keyType k = string_key ->
   key c schema k
   = (vs ← literals c schema; Return (arr [string_node [VStr "value"; VStr k]; vs])))
  /\ (keyType k = pattern -> regexp_ok (slice k 1 (String.length k - 1)) = false ->
      key c schema k = Throw SyntaxError)
  /\ (forall pair, key c schema k = Return pair ->
        exists ks vs, pair = arr [ks; vs] /\ literals c schema = Return vs)
  /\ (forall e, key c schema k = Throw e ->
        (keyType k = pattern /\ e = SyntaxError) \/ literals c schema = Throw e).
Proof.
  unfold key, key_with, new_RegExp. split; [|split; [|split]].
  - intros ->. rewrite S_string_eq. done.
  - by intros -> ->.
  - intros pair. destruct (keyType k).
    + destruct (regexp_ok _); [|discriminate]. cbn [mbind completion_bind].
      rewrite S_string_eq. cbn [mbind completion_bind].
      destruct (literals c schema); [|discriminate]. intros [= <-]. eauto.
    + destruct (literals c schema); [|discriminate]. intros [= <-]. eauto.
    + rewrite S_string_eq. cbn [mbind completion_bind].
      destruct (literals c schema); [|discriminate]. intros [= <-]. eauto.
  - intros e. destruct (keyType k).
    + destruct (regexp_ok _).
      * cbn [mbind completion_bind]. rewrite S_string_eq. cbn [mbind completion_bind].
        destruct (literals c schema); [discriminate|]. intros [= <-]. by right.
      * intros [= <-]. by left.
    + destruct (literals c schema); [discriminate|]. intros [= <-]. by right.
    + rewrite S_string_eq. cbn [mbind completion_bind].
      destruct (literals c schema); [discriminate|]. intros [= <-]. by right.
Qed.

(** ** [role] *)

(** X10: [role] wraps a copy of the elements of the node it is given in an
    annotation node that holds the role, without coercing anything; the
    copy does not carry the marker, so [isSchema] is false of it even when
    the node given is a schema; a node of fewer than two elements is
    padded with undefined; a second argument that is not iterable, a
    missing one included, throws a TypeError. *)
Theorem role_wraps_unblessed_copy (role : value) (node : value) (more : list value) :
  (forall p xs, node = VArr p xs ->
     S_role (role :: node :: more)
     = Return (VArr blessed
                 [VStr "annotation"; VObj [("role", role)];
                  arr (arg 0 xs :: arg 1 xs :: drop 2 xs)])
     /\ isSchema (arr (arg 0 xs :: arg 1 xs :: drop 2 xs)) = false
     /\ (2 <= length xs -> arg 0 xs :: arg 1 xs :: drop 2 xs = xs)
     /\ 2 <= length (arg 0 xs :: arg 1 xs :: drop 2 xs))
  /\ (_isArray node = false -> _isString node = false ->
      S_role (role :: node :: more) = Throw TypeError)
  /\ S_role [role] = Throw TypeError
  /\ S_role [] = Throw TypeError.
Proof.
  split; [|split; [|done]].
  - intros p xs ->. split; [done|]. split; [done|]. split; [|simpl; lia].
    destruct xs as [|x [|y xs]]; simpl; intros; (lia || done).
  - by destruct node.
Qed.

(** ** [desc] *)

Lemma S_desc_eq c args :
  S_desc c args =
  (node ← literals c (desc_schema args);
   xs ← iterate node;
   Return (VArr (Props true true false)
             (arg 0 xs
              :: VObj (m [VObj [("title",
                                 arg 0 (if (length args =? 2)%nat
                                        then VUndef :: args else args));
                                ("description",
                                 arg 1 (if (length args =? 2)%nat
                                        then VUndef :: args else args))];
                          arg 1 xs])
              :: drop 2 xs))).
Proof.
  unfold S_desc, blessFn, desc_with, desc_schema.
  destruct (literals c _) as [node|]; [|done]. cbn [mbind completion_bind].
  by destruct (iterate node).
Qed.

(** X11: [desc] coerces its schema argument with [literals] before anything
    else: a literal and the node it is coerced to are described alike, and
    what [literals] throws on the schema argument [desc] throws; called
    with fewer than two arguments, it throws the error of [literals] for
    undefined; the two-argument form is the three-argument form with an
    undefined title; arguments after the third are ignored. *)
Theorem desc_coerces_its_schema (c : gmap string value) (t d x : value) :
  (forall y, literals c x = Return y -> S_desc c [t; d; x] = S_desc c [t; d; y])
  /\ (forall e, literals c x = Throw e -> S_desc c [t; d; x] = Throw e)
  /\ S_desc c [d; x] = S_desc c [VUndef; d; x]
  /\ (forall more, S_desc c (t :: d :: x :: more) = S_desc c [t; d; x])
  /\ S_desc c [] = Throw (unknown "undefined")
  /\ S_desc c [x] = Throw (unknown "undefined").
Proof.
  split; [|split; [|split; [|split; [|split]]]].
  - intros y Hy. rewrite !S_desc_eq. unfold desc_schema. cbn [length Nat.eqb arg nth].
    rewrite Hy. apply literals_isSchema in Hy as Hy'.
    by rewrite (literals_schema _ _ Hy').
  - intros e He. rewrite S_desc_eq. unfold desc_schema. cbn [length Nat.eqb arg nth].
    by rewrite He.
  - reflexivity.
  - intros more. rewrite !S_desc_eq. unfold desc_schema. by destruct more.
  - reflexivity.
  - reflexivity.
Qed.

(** X12: A described node has no method [to]: describing a function node gives
    a node with the tag, the return slot and the argument schemas of the
    function node, on which calling [to] throws. *)
Theorem desc_of_fn_has_no_to
    (c : gmap string value) (schemas : list value) (f : value) (t d : value) :
  S_fn c schemas = Return f ->
  exists opts,
    S_desc c [t; d; f]
    = Return (VArr (Props true true false)
                (VStr "function" :: VObj opts :: drop 2 (elements f)))
    /\ (forall args, call_to f args <> Throw TypeError)
    /\ (forall s args, S_desc c [t; d; f] = Return s -> call_to s args = Throw TypeError).
Proof.
  rewrite S_fn_eq, bind_Return. intros (xs & _ & [= <-]).
  eexists. split; [|split].
  - rewrite S_desc_eq. unfold desc_schema. cbn [length Nat.eqb arg nth].
    rewrite literals_schema by done. reflexivity.
  - done.
  - intros s args Hs. destruct (S_desc_props _ _ _ Hs) as (ys & ->). done.
Qed.

(** A new property goes last; all others keep their place. *)
Lemma obj_set_fresh k v o : obj_get k o = None -> obj_set k v o = o ++ [(k, v)].
Proof.
  induction o as [|[k' v'] o IH]; [done|]. simpl.
  destruct (String.eqb k' k); [discriminate|]. intros H. by rewrite IH.
Qed.

Lemma obj_set_keys_prefix k v o :
  exists tail, List.map fst (obj_set k v o) = List.map fst o ++ tail.
Proof.
  induction o as [|[k' v'] o (tail & IH)]; simpl.
  - by exists [k].
  - destruct (String.eqb_spec k' k) as [->|Hne]; simpl.
    + exists []. by rewrite app_nil_r.
    + exists tail. by rewrite IH.
Qed.

Lemma assign_keys_prefix es o :
  exists tail, List.map fst (assign es o) = List.map fst o ++ tail.
Proof.
  revert o. induction es as [|[k v] es IH]; intros o.
  - exists []. by rewrite app_nil_r.
  - change (assign ((k, v) :: es) o) with (assign es (obj_set k v o)).
    destruct (IH (obj_set k v o)) as (tail & ->).
    destruct (obj_set_keys_prefix k v o) as (tail' & ->).
    exists (tail' ++ tail). by rewrite app_assoc.
Qed.

Lemma obj_set_all_defined k v o :
  is_undefined v = false -> all_defined o -> all_defined (obj_set k v o).
Proof.
  unfold all_defined. intros Hv. induction o as [|[k' v'] o IH]; simpl; intros Ho.
  - by repeat constructor.
  - apply Forall_cons in Ho as [Hv' Ho].
    destruct (String.eqb k' k); constructor; auto.
Qed.

Lemma assign_all_defined es o :
  all_defined es -> all_defined o -> all_defined (assign es o).
Proof.
  revert o. induction es as [|[k v] es IH]; intros o Hes Ho; [done|].
  apply Forall_cons in Hes as [Hv Hes]. apply IH; [done|].
  by apply obj_set_all_defined.
Qed.

Lemma pick_all_defined o :
  all_defined o -> _pick o (fun v => negb (is_undefined v)) = o.
Proof.
  unfold all_defined, _pick. induction 1 as [|[k v] o Hv _ IH]; [done|].
  simpl in *. by rewrite Hv, IH.
Qed.

(** Properties with new names are appended in order. *)
Lemma assign_fresh more pre : distinct_keys (pre ++ more) -> assign more pre = pre ++ more.
Proof.
  revert pre. induction more as [|[k v] more IH]; intros pre Hd.
  - by rewrite app_nil_r.
  - change (assign ((k, v) :: more) pre) with (assign more (obj_set k v pre)).
    assert (Hk : obj_get k pre = None).
    { apply obj_get_None. unfold distinct_keys in Hd.
      rewrite List.map_app in Hd. apply NoDup_app in Hd as (_ & Hd & _).
      intros Hin. apply (Hd k); [by apply list_elem_of_In | by left]. }
    rewrite (obj_set_fresh _ _ _ Hk), IH; [by rewrite <- app_assoc|].
    by rewrite <- app_assoc.
Qed.

(** The options [desc] computes over a title and a description that are
    not undefined begin with these two properties. *)
Lemma described_options a b opts :
  distinct_keys opts -> all_defined opts ->
  is_undefined a = false -> is_undefined b = false ->
  exists a' b' others,
    m [VObj [("title", a); ("description", b)]; VObj opts]
    = ("title", a') :: ("description", b') :: others
    /\ distinct_keys (("title", a') :: ("description", b') :: others)
    /\ all_defined (("title", a') :: ("description", b') :: others).
Proof.
  intros Hd Hall Ha Hb. unfold m, _extend. cbn [fold_left _allKeys].
  change (assign [("title", a); ("description", b)] [])
    with [("title", a); ("description", b)].
  set (pre := [("title", a); ("description", b)]).
  assert (Hpre_all : all_defined pre) by (by repeat constructor).
  assert (Hpre_d : distinct_keys pre).
  { unfold distinct_keys, pre. simpl. rewrite !NoDup_cons, !list_elem_of_In. simpl.
    intuition (try discriminate). apply NoDup_nil_2. }
  pose proof (assign_all_defined opts pre Hall Hpre_all) as Hall'.
  pose proof (assign_distinct opts pre Hpre_d) as Hd'.
  rewrite (pick_all_defined _ Hall').
  destruct (assign_keys_prefix opts pre) as (tail & Hkeys).
  destruct (assign opts pre) as [|[k1 v1] [|[k2 v2] others]]; try discriminate.
  simpl in Hkeys. injection Hkeys as -> -> _. by exists v1, v2, others.
Qed.

(** X13: Describing a node that already has a title and a description changes
    nothing: [desc(t, d, desc(a, b, s))] is [desc(a, b, s)], for a node
    [s] whose options hold no undefined and for [a] and [b] that are not
    undefined. *)
Theorem desc_over_described_node
    (c : gmap string value) (a b t d : value)
    (p : props) (type : value) (opts : object) (rest : list value) (s1 : value) :
  p_schema p = true ->
  distinct_keys opts ->
  all_defined opts ->
  is_undefined a = false ->
  is_undefined b = false ->
  S_desc c [a; b; VArr p (type :: VObj opts :: rest)] = Return s1 ->
  S_desc c [t; d; s1] = Return s1.
Proof.
  intros Hp Hd Hall Ha Hb. rewrite S_desc_eq. unfold desc_schema.
  cbn [length Nat.eqb arg nth]. rewrite literals_schema by done.
  cbn [mbind completion_bind iterate arg nth drop].
  destruct (described_options a b opts Hd Hall Ha Hb)
    as (a' & b' & others & -> & Hd1 & Hall1).
  rewrite drop_0. intros [= <-]. rewrite S_desc_eq. unfold desc_schema.
  cbn [length Nat.eqb arg nth]. rewrite literals_schema by done.
  cbn [mbind completion_bind iterate arg nth drop]. rewrite drop_0. do 3 f_equal.
  unfold m, _extend. cbn [fold_left _allKeys].
  change (assign (("title", a') :: ("description", b') :: others)
            (assign [("title", t); ("description", d)] []))
    with (assign others [("title", a'); ("description", b')]).
  rewrite assign_fresh by done. apply (f_equal (fun o => VObj o :: rest)).
  exact (pick_all_defined _ Hall1).
Qed.

(** ** The cache *)

Lemma token_inj n n' : magic +:+ decimal n = magic +:+ decimal n' -> n = n'.
Proof. intros H. simpl in H. injection H as H. by apply decimal_inj. Qed.

Lemma ref_toString_eq this st :
  ref_toString this st
  = (magic +:+ decimal (plus_one (idCounter st)),
     State (<[magic +:+ decimal (plus_one (idCounter st)) := this]> (cache st))
       (plus_one (idCounter st))).
Proof. reflexivity. Qed.

Lemma plus_one_bounds n : n <= plus_one n /\ 1 <= plus_one n.
Proof. unfold plus_one. destruct (Z.ltb_spec (Z.of_nat n) 9007199254740992); lia. Qed.

(** X14: When every key of the cache is a token minted so far, which is
    kept by every call of [_.uniqueId] and by every coercion, a coercion
    made while the counter is below 2^53 mints a token that is not in the
    cache yet: the cache gains exactly one entry and keeps all the entries
    it has.  Once the counter has reached 2^53 it no longer changes: the
    coercion mints the token of the counter again and writes the node
    over the entry of that token. *)
Theorem minting_adds_one_entry (this : value) (st : state) :
  minted st ->
  minted (snd (ref_toString this st))
  /\ (forall prefix, minted (snd (_uniqueId prefix st)))
  /\ ((Z.of_nat (idCounter st) < 9007199254740992)%Z ->
      cache st !! fst (ref_toString this st) = None
      /\ size (cache (snd (ref_toString this st))) = S (size (cache st))
      /\ (forall k v, cache st !! k = Some v ->
            cache (snd (ref_toString this st)) !! k = Some v))
  /\ ((9007199254740992 <= Z.of_nat (idCounter st))%Z ->
      fst (ref_toString this st) = magic +:+ decimal (idCounter st)
      /\ idCounter (snd (ref_toString this st)) = idCounter st
      /\ cache (snd (ref_toString this st))
         = <[magic +:+ decimal (idCounter st) := this]> (cache st)).
Proof.
  intros Hst. rewrite ref_toString_eq. cbn [fst snd cache idCounter].
  pose proof (plus_one_bounds (idCounter st)) as [Hle Hone].
  split; [|split; [|split]].
  - intros k Hk. cbn [cache idCounter] in *.
    destruct (decide (magic +:+ decimal (plus_one (idCounter st)) = k)) as [<-|Hne].
    + exists (plus_one (idCounter st)). split; [done | lia].
    + rewrite lookup_insert_ne in Hk by done.
      destruct (Hst k Hk) as (n & -> & Hn). exists n. split; [done | lia].
  - intros prefix k Hk. cbn [_uniqueId snd cache idCounter] in *.
    destruct (Hst k Hk) as (n & -> & Hn). exists n. split; [done | lia].
  - intros Hbelow. rewrite (plus_one_below _ Hbelow).
    assert (Hfresh : cache st !! (magic +:+ decimal (S (idCounter st))) = None).
    { destruct (cache st !! _) eqn:E; [|done].
      destruct (Hst _ (mk_is_Some _ _ E)) as (n & Hn & Hn').
      apply token_inj in Hn. lia. }
    split; [done|]. split; [by apply map_size_insert_None|].
    intros k v Hk. rewrite lookup_insert_ne; [done|]. intros <-. congruence.
  - intros Hreached. by rewrite (plus_one_reached _ Hreached).
Qed.

(** X15: The same node coerced twice resolves under both tokens; while the
    counter stays below 2^53 the two tokens are different, so that each
    use of a node as a key takes a cache entry of its own; once the
    counter has reached 2^53 the two tokens are the same. *)
Theorem repeated_coercion_mints_two_tokens (this : value) (st : state) :
  let first := ref_toString this st in
  let second := ref_toString this (snd first) in
  cache (snd second) !! fst first = Some this
  /\ cache (snd second) !! fst second = Some this
  /\ ((Z.of_nat (idCounter st) + 1 < 9007199254740992)%Z -> fst first <> fst second)
  /\ ((9007199254740992 <= Z.of_nat (idCounter st) + 1)%Z -> fst first = fst second).
Proof.
  intros first second. unfold second, first. rewrite !ref_toString_eq.
  cbn [fst snd cache idCounter]. split; [|split; [|split]].
  - destruct (decide (magic +:+ decimal (plus_one (plus_one (idCounter st)))
                      = magic +:+ decimal (plus_one (idCounter st)))) as [->|Hne].
    + apply lookup_insert_eq.
    + rewrite lookup_insert_ne by done. apply lookup_insert_eq.
  - apply lookup_insert_eq.
  - intros Hbelow. rewrite (plus_one_below (idCounter st)) by lia.
    rewrite (plus_one_below (S (idCounter st))) by lia.
    intros H. apply token_inj in H. lia.
  - intros Hreached.
    destruct (Z.ltb_spec (Z.of_nat (idCounter st)) 9007199254740992) as [Hlt|Hge].
    + rewrite (plus_one_below (idCounter st)) by lia.
      by rewrite (plus_one_reached (S (idCounter st))) by lia.
    + by rewrite !(plus_one_reached (idCounter st)) by lia.
Qed.

(** ** When [literals] returns *)

Lemma bless_after_array {A} (M : completion A) (mk : A -> value) :
  (forall a, _isArray (mk a) = true) ->
  (exists y, (node ← (a ← M; Return (mk a)); bless node) = Return y)
  <-> exists a, M = Return a.
Proof.
  intros Hmk. destruct M as [a|e]; cbn [mbind completion_bind].
  - split; [eauto|]. intros _. specialize (Hmk a). destruct (mk a); try done. by eexists.
  - split; [by intros [y [=]] | by intros [a [=]]].
Qed.

(** Goals that compare "returns" on both sides of an equivalence. *)
Ltac returns_iff :=
  split;
  [ first [ by intros [? [=]]
          | intros _; split; [done | by eexists]
          | intros _; by eexists
          | done ]
  | first [ by intros [[=] _]
          | by intros [_ [? [=]]]
          | intros _; by eexists
          | done ] ].

Lemma key_with_returns c x k :
  (exists pair, key_with (literals c) c x k = Return pair)
  <-> key_ok k = true /\ exists y, literals c x = Return y.
Proof.
  unfold key_with, key_ok, new_RegExp. destruct (keyType k).
  - destruct (regexp_ok _); cbn [mbind completion_bind].
    + rewrite S_string_eq. cbn [mbind completion_bind].
      destruct (literals c x); cbn [mbind completion_bind]; returns_iff.
    + returns_iff.
  - destruct (literals c x); cbn [mbind completion_bind]; returns_iff.
  - rewrite S_string_eq. cbn [mbind completion_bind].
    destruct (literals c x); cbn [mbind completion_bind]; returns_iff.
Qed.

Lemma map_key_by_index_returns len :
  (exists ps, map_key_by_index len = Return ps)
  <-> is_integer len && PrimFloat.leb len 4294967295%float && PrimFloat.eqb len 0%float = true.
Proof.
  unfold map_key_by_index.
  destruct (is_integer len && PrimFloat.leb len 4294967295%float); simpl.
  - destruct (PrimFloat.eqb len 0%float); returns_iff.
  - returns_iff.
Qed.

Lemma Forall_forallb {A} (P : A -> Prop) (f : A -> bool) l :
  Forall (fun x => P x <-> f x = true) l -> Forall P l <-> forallb f l = true.
Proof.
  induction 1 as [|x l Hx _ IH]; simpl.
  - split; [done | constructor].
  - rewrite Forall_cons, andb_true_iff, Hx, IH. done.
Qed.

Lemma literals_returns_iff c v :
  (exists y, literals c v = Return y) <-> coercible v = true.
Proof.
  induction v as [| |b|x|s|s|n t|p xs IH|es IH|d] using value_nested_ind;
    cbn [coercible]; try (split; [by intros [? [=]] | discriminate]);
    try (split; [done | intros _; by eexists]).
  - cbn [literals]. destruct (p_schema p); [split; eauto|]. cbn [orb].
    rewrite <- (Forall_forallb _ _ _ IH).
    destruct xs as [|x [|x' xs]].
    + split; [constructor | by eexists].
    + unfold arrayOf_with. cbn [arg nth].
      rewrite (bless_after_array _ (fun y => arr [VStr "list"; VObj []; y])) by done.
      rewrite Forall_cons. split; [by split; [|constructor] | by intros [? _]].
    + unfold array_with.
      rewrite (bless_after_array _ (fun ys => arr (VStr "tuple" :: VObj [] :: ys))) by done.
      apply mapM_returns.
  - cbn [literals]. unfold objargs_map.
    rewrite (bless_after_array _ (fun ps => arr (VStr _ :: VObj [] :: ps))) by done.
    cbn [map_key_with]. destruct (isArrayLike_length (obj_read "length" es)).
    + destruct (obj_read "length" es); try (split; [done | intros _; by eexists]).
      apply map_key_by_index_returns.
    + rewrite mapM_returns.
      rewrite <- (Forall_forallb
                    (fun e => exists pair, key_with (literals c) c (snd e) (fst e) = Return pair)).
      * done.
      * eapply Forall_impl; [apply IH|]. intros [k x] Hx. cbn [fst snd] in *.
        by rewrite key_with_returns, andb_true_iff, Hx.
Qed.

Lemma literals_returns_or_throws c v :
  coercible v = false <-> exists e, literals c v = Throw e.
Proof.
  rewrite <- not_true_iff_false, <- (literals_returns_iff c v).
  destruct (literals c v) as [y|e]; split.
  - intros H. destruct H. eauto.
  - by intros [? [=]].
  - eauto.
  - by intros _ [? [=]].
Qed.

(** X16: [literals] returns exactly on the values that [coercible] computes:
    text, numbers, regular expressions, schema nodes whatever they hold,
    arrays of coercible elements, and objects of coercible values whose
    pattern keys are regular expressions; on every other value it
    throws. *)
Theorem literals_returns_on_coercible (c : gmap string value) (v : value) :
  ((exists y, literals c v = Return y) <-> coercible v = true)
  /\ ((exists e, literals c v = Throw e) <-> coercible v = false).
Proof.
  split; [apply literals_returns_iff | symmetry; apply literals_returns_or_throws].
Qed.

(** ** What the cache can change *)

Lemma mapM_Throw_transfer {A B} (f g : A -> completion B) l e :
  Forall (fun x => (forall e, f x = Throw e -> g x = Throw e)
                   /\ ((exists y, f x = Return y) -> exists y, g x = Return y)) l ->
  mapM f l = Throw e -> mapM g l = Throw e.
Proof.
  intros Hl. rewrite !mapM_Throw_first.
  intros (before & x & after & -> & Hb & Hx).
  apply Forall_app in Hl as [Hl1 Hl2]. apply Forall_cons in Hl2 as [[Hx' _] _].
  exists before, x, after. split; [done|]. split; [|by apply Hx'].
  rewrite List.Forall_forall in *. intros x0 Hin. apply Hl1; [done | by apply Hb].
Qed.

Lemma key_with_Throw_transfer c c' x k e :
  (forall e, literals c x = Throw e -> literals c' x = Throw e) ->
  key_with (literals c) c x k = Throw e -> key_with (literals c') c' x k = Throw e.
Proof.
  intros Hx. unfold key_with, new_RegExp. destruct (keyType k).
  - destruct (regexp_ok _); [|done]. cbn [mbind completion_bind].
    rewrite S_string_eq. cbn [mbind completion_bind].
    destruct (literals c x) eqn:E; [discriminate|]. intros [= <-].
    by rewrite (Hx _ eq_refl).
  - destruct (literals c x) eqn:E; [discriminate|]. intros [= <-].
    by rewrite (Hx _ eq_refl).
  - rewrite S_string_eq. cbn [mbind completion_bind].
    destruct (literals c x) eqn:E; [discriminate|]. intros [= <-].
    by rewrite (Hx _ eq_refl).
Qed.

Lemma literals_Throw_transfer c c' v e :
  literals c v = Throw e -> literals c' v = Throw e.
Proof.
  revert e. induction v as [| |b|x|s|s|n t|p xs IH|es IH|d] using value_nested_ind;
    intros e; try done.
  - cbn [literals]. destruct (p_schema p); [done|].
    assert (IH' : Forall (fun x =>
              (forall e, literals c x = Throw e -> literals c' x = Throw e)
              /\ ((exists y, literals c x = Return y) -> exists y, literals c' x = Return y)) xs).
    { eapply Forall_impl; [apply IH|]. intros x Hx. split; [done|].
      by rewrite !literals_returns_iff. }
    destruct xs as [|x [|x' xs]]; [done| |].
    + apply Forall_cons in IH' as [[Hx _] _]. unfold arrayOf_with. cbn [arg nth].
      destruct (literals c x) eqn:E; [discriminate|]. intros [= <-].
      by rewrite (Hx _ eq_refl).
    + unfold array_with.
      destruct (mapM (literals c) (x :: x' :: xs)) eqn:E; [discriminate|].
      intros [= <-]. by rewrite (mapM_Throw_transfer _ _ _ _ IH' E).
  - cbn [literals]. unfold objargs_map. cbn [map_key_with].
    destruct (isArrayLike_length (obj_read "length" es)); [done|].
    destruct (mapM _ es) eqn:E; [discriminate|]. intros [= <-].
    erewrite mapM_Throw_transfer; [done| |exact E].
    eapply Forall_impl; [apply IH|]. intros [k x] Hx. cbn [fst snd] in *. split.
    + intros e1. by apply key_with_Throw_transfer.
    + rewrite !key_with_returns, !literals_returns_iff. done.
Qed.

(** X17: Whether [literals] throws, and what it throws, does not depend on the
    cache: the cache can only change the key schemas of the pairs that
    reference keys resolve to. *)
Theorem literals_outcome_ignores_cache (c c' : gmap string value) (v : value) :
  (forall e, literals c v = Throw e <-> literals c' v = Throw e)
  /\ ((exists y, literals c v = Return y) <-> exists y, literals c' v = Return y).
Proof.
  split.
  - intros e. split; apply literals_Throw_transfer.
  - by rewrite !literals_returns_iff.
Qed.

(** ** The shape of the nodes *)

Lemma node_shape_intro p tag opts params :
  p_schema p = true -> node_shape (VArr p (VStr tag :: VObj opts :: params)).
Proof. intros Hp. by exists p, tag, opts, params. Qed.

Ltac shape_of_bind :=
  rewrite bind_Return; intros (? & _ & [= <-]); by apply node_shape_intro.

Lemma S_objargs_node_shape c type args v :
  (node ← objargs c type args; bless node) = Return v -> node_shape v.
Proof.
  destruct (objargs_tag c args) as (pairs & Hpairs). rewrite Hpairs.
  destruct pairs as [ps|e]; [|discriminate]. intros [= <-]. by apply node_shape_intro.
Qed.

Lemma literals_node_shape c x v :
  (isSchema x = true -> node_shape x) -> literals c x = Return v -> node_shape v.
Proof.
  intros Hx. rewrite literals_eq. destruct (isSchema x); [by intros [= <-]; apply Hx|].
  repeat case_match; try discriminate.
  - rewrite S_string_eq. intros [= <-]. by apply node_shape_intro.
  - rewrite S_number_eq. intros [= <-]. by apply node_shape_intro.
  - rewrite S_arrayOf_eq. shape_of_bind.
  - rewrite S_array_eq. shape_of_bind.
  - apply S_objargs_node_shape.
  - apply S_objargs_node_shape.
Qed.

(** X18: Every builder returns a blessed array that begins with a tag and an
    options object.  [literals] and [desc], which pass on a node they are
    given, do so provided that node has this shape; so does the method
    [to]. *)
Theorem builders_return_tag_and_options
    (c : gmap string value) (args : list value) (x v : value) :
  (S_string args = Return v \/ S_number args = Return v \/ S_or c args = Return v
   \/ S_array c args = Return v \/ S_arrayOf c args = Return v
   \/ S_object c args = Return v \/ S_dict c args = Return v
   \/ S_fn c args = Return v \/ S_role args = Return v
   \/ S_boolean = Return v \/ S_nullval = Return v -> node_shape v)
  /\ ((isSchema x = true -> node_shape x) -> literals c x = Return v -> node_shape v)
  /\ ((isSchema (desc_schema args) = true -> node_shape (desc_schema args)) ->
      S_desc c args = Return v -> node_shape v)
  /\ (node_shape x -> call_to x args = Return v -> node_shape v).
Proof.
  split; [|split; [apply literals_node_shape|split]].
  - intros [H|[H|[H|[H|[H|[H|[H|[H|[H|[H|H]]]]]]]]]]; revert H.
    + rewrite S_string_eq. intros [= <-]. by apply node_shape_intro.
    + rewrite S_number_eq. intros [= <-]. by apply node_shape_intro.
    + rewrite S_or_eq. shape_of_bind.
    + rewrite S_array_eq. shape_of_bind.
    + rewrite S_arrayOf_eq. shape_of_bind.
    + apply S_objargs_node_shape.
    + apply S_objargs_node_shape.
    + rewrite S_fn_eq. shape_of_bind.
    + unfold S_role, blessFn, role_body. rewrite bind_Return.
      intros (node & Hnode & Hv). apply bind_Return in Hnode as (xs & _ & [= <-]).
      injection Hv as <-. by apply node_shape_intro.
    + intros [= <-]. by apply node_shape_intro.
    + intros [= <-]. by apply node_shape_intro.
  - intros Hshape. rewrite S_desc_eq, bind_Return. intros (node & Hnode & Hv).
    apply literals_node_shape in Hnode as (p & tag & opts & params & -> & Hp); [|done].
    injection Hv as <-. by apply node_shape_intro.
  - intros (p & tag & opts & params & -> & Hp). cbn [call_to].
    destruct (p_to p); [|discriminate]. intros [= <-]. by apply node_shape_intro.
Qed.

(** ** The merge [m], whatever it is given *)

Lemma obj_set_In k v k' v' o :
  In (k, v) (obj_set k' v' o) -> (k, v) = (k', v') \/ In (k, v) o.
Proof.
  induction o as [|[k0 v0] o IH]; simpl.
  - intros [[= <- <-]|[]]. by left.
  - destruct (String.eqb k0 k'); simpl; intros [[= <- <-]|H]; auto.
    destruct (IH H); auto.
Qed.

Lemma assign_In k v es o : In (k, v) (assign es o) -> In (k, v) es \/ In (k, v) o.
Proof.
  revert o. induction es as [|[k' v'] es IH]; intros o; [by right|].
  change (assign ((k', v') :: es) o) with (assign es (obj_set k' v' o)).
  intros H. destruct (IH _ H) as [H'|H']; [left; by right|].
  destruct (obj_set_In _ _ _ _ _ H') as [[= <- <-]|H'']; [left; by left | by right].
Qed.

Lemma extend_In k v sources o :
  In (k, v) (_extend o sources) ->
  In (k, v) o \/ exists source, In source sources /\ In (k, v) (_allKeys source).
Proof.
  unfold _extend. revert o. induction sources as [|source sources IH]; intros o; [by left|].
  cbn [fold_left]. intros H. destruct (IH _ H) as [H'|(src & Hin & H')].
  - destruct (assign_In _ _ _ _ H') as [H''|H'']; [|by left].
    right. exists source. split; [by left | done].
  - right. exists src. split; [by right | done].
Qed.

Lemma extend_distinct sources o : distinct_keys o -> distinct_keys (_extend o sources).
Proof.
  unfold _extend. revert o. induction sources as [|source sources IH]; intros o Ho; [done|].
  cbn [fold_left]. by apply IH, assign_distinct.
Qed.

Lemma pick_distinct o predicate : distinct_keys o -> distinct_keys (_pick o predicate).
Proof.
  unfold distinct_keys, _pick. induction o as [|[k v] o IH]; [done|]. simpl.
  rewrite NoDup_cons, list_elem_of_In. intros [Hk Ho].
  destruct (predicate v); simpl; [|by apply IH].
  rewrite NoDup_cons, list_elem_of_In. split; [|by apply IH].
  intros Hin. apply Hk. apply in_map_iff in Hin as ([k' v'] & <- & Hin).
  apply filter_In in Hin as [Hin _]. apply in_map_iff. by exists (k', v').
Qed.


(** ** The test suite's [curse] *)

Lemma mapTree_result_ignores_props t fn fn' :
  fst (mapTree t fn) = fst (mapTree t fn').
Proof.
  induction t as [| |b|x|s|s|n tx|p xs IH|es IH|d] using value_nested_ind; try done.
  - cbn [mapTree fst]. f_equal. rewrite !List.map_map.
    apply List.map_ext_Forall, IH.
  - cbn [mapTree fst]. f_equal. rewrite !List.map_map.
    apply List.map_ext_Forall. eapply Forall_impl; [apply IH|].
    intros [k x] Hx. cbn [fst snd] in *. by rewrite Hx.
Qed.

Lemma mapTree_again t fn fn' :
  fst (mapTree (fst (mapTree t fn)) fn') = fst (mapTree t fn)
  /\ fst (mapTree (snd (mapTree t fn)) fn') = fst (mapTree t fn).
Proof.
  induction t as [| |b|x|s|s|n tx|p xs IH|es IH|d] using value_nested_ind; try done.
  - cbn [mapTree fst snd]. split; f_equal; rewrite !List.map_map;
      apply List.map_ext_Forall; eapply Forall_impl; try apply IH; by intros x [??].
  - cbn [mapTree fst snd]. split; f_equal; rewrite !List.map_map;
      apply List.map_ext_Forall; eapply Forall_impl; try apply IH;
      intros [k x] [H1 H2]; cbn [fst snd] in *; by rewrite ?H1, ?H2.
Qed.

Lemma mapTree_result t fn : fst (mapTree t fn) = curse (emptied t).
Proof.
  induction t as [| |b|x|s|s|n tx|p xs IH|es IH|d] using value_nested_ind; try done.
  - cbn [mapTree fst emptied curse]. f_equal. rewrite !List.map_map.
    apply List.map_ext_Forall, IH.
  - cbn [mapTree fst emptied curse]. f_equal. rewrite !List.map_map.
    apply List.map_ext_Forall. eapply Forall_impl; [apply IH|].
    intros [k x] Hx. cbn [fst snd] in *. by rewrite Hx.
Qed.

Lemma mapTree_argument_shape t fn : curse (snd (mapTree t fn)) = curse t.
Proof.
  induction t as [| |b|x|s|s|n tx|p xs IH|es IH|d] using value_nested_ind; try done.
  - cbn [mapTree snd curse]. f_equal. rewrite !List.map_map.
    apply List.map_ext_Forall, IH.
  - cbn [mapTree snd curse]. f_equal. rewrite !List.map_map.
    apply List.map_ext_Forall. eapply Forall_impl; [apply IH|].
    intros [k x] Hx. cbn [fst snd] in *. by rewrite Hx.
Qed.

Lemma flat_map_map_ext {A B} (f : A -> list B) (g : A -> A) (h : B -> B) l :
  Forall (fun x => f (g x) = List.map h (f x)) l ->
  flat_map f (List.map g l) = List.map h (flat_map f l).
Proof.
  induction 1 as [|x l Hx _ IH]; [done|].
  cbn [List.map flat_map]. by rewrite List.map_app, Hx, IH.
Qed.

Lemma mapTree_argument_props t fn :
  props_within (snd (mapTree t fn)) = List.map fn (props_within t).
Proof.
  induction t as [| |b|x|s|s|n tx|p xs IH|es IH|d] using value_nested_ind; try done.
  - cbn [mapTree snd props_within List.map]. f_equal. rewrite List.map_map.
    by apply (flat_map_map_ext props_within (fun v => snd (mapTree v fn)) fn).
  - cbn [mapTree snd props_within]. rewrite !List.map_map.
    apply (flat_map_map_ext (fun e => props_within (snd e))
             (fun e => (fst e, snd (mapTree (snd e) fn))) fn).
    eapply Forall_impl; [apply IH|]. by intros [k x] Hx.
Qed.

Lemma props_within_sound v p xs :
  within (VArr p xs) v -> In p (props_within v).
Proof.
  induction v as [| |b|x|s|s|n tx|p0 ys IH|es IH|d] using value_nested_ind;
    intros H; inversion H as [|p' xs' y Hin Hu|es' k y Hin Hu]; subst.
  - by left.
  - right. apply in_flat_map. exists y. split; [done|].
    exact (proj1 (List.Forall_forall _ _) IH _ Hin Hu).
  - cbn [props_within]. apply in_flat_map. exists (k, y). split; [done|].
    exact (proj1 (List.Forall_forall _ _) IH _ Hin Hu).
Qed.

Lemma curse_props v : Forall (fun p => p = plain) (props_within (curse v)).
Proof.
  induction v as [| |b|x|s|s|n tx|p xs IH|es IH|d] using value_nested_ind;
    try apply List.Forall_nil.
  - cbn [curse props_within]. apply List.Forall_cons; [done|].
    apply List.Forall_forall. intros q Hq.
    apply in_flat_map in Hq as (y & Hy & Hq).
    apply in_map_iff in Hy as (x & <- & Hx).
    pose proof (proj1 (List.Forall_forall _ _) IH _ Hx) as IHx.
    exact (proj1 (List.Forall_forall _ _) IHx _ Hq).
  - cbn [curse props_within]. apply List.Forall_forall. intros q Hq.
    apply in_flat_map in Hq as (y & Hy & Hq).
    apply in_map_iff in Hy as ([k x] & <- & Hx).
    pose proof (proj1 (List.Forall_forall _ _) IH _ Hx) as IHx.
    exact (proj1 (List.Forall_forall _ _) IHx _ Hq).
Qed.

Lemma emptied_within v u :
  within u (curse (emptied v)) -> _isFunction u = false /\ _isRegExp u = false.
Proof.
  induction v as [| |b|x|s|s|n tx|p xs IH|es IH|d] using value_nested_ind;
    cbn [emptied curse]; intros H; inversion H as [|p' xs' y Hin Hu|es' k y Hin Hu];
    subst; try done.
  - apply in_map_iff in Hin as (y' & <- & Hy).
    apply in_map_iff in Hy as (x & <- & Hx).
    exact (proj1 (List.Forall_forall _ _) IH _ Hx Hu).
  - apply in_map_iff in Hin as ([k' y'] & [= <- <-] & Hy).
    apply in_map_iff in Hy as ([k'' z] & [= <- <-] & Hz).
    exact (proj1 (List.Forall_forall _ _) IH _ Hz Hu).
Qed.

Lemma emptied_curse v : emptied (curse v) = curse (emptied v).
Proof.
  induction v as [| |b|x|s|s|n tx|p xs IH|es IH|d] using value_nested_ind; try done.
  - cbn [emptied curse]. f_equal. rewrite !List.map_map.
    apply List.map_ext_Forall, IH.
  - cbn [emptied curse]. f_equal. rewrite !List.map_map.
    apply List.map_ext_Forall. eapply Forall_impl; [apply IH|].
    intros [k x] Hx. cbn [fst snd] in *. by rewrite Hx.
Qed.

Lemma del_keeps_to p names :
  existsb (String.eqb "to") names = false -> p_to (del p names) = p_to p.
Proof. intros H. unfold del. cbn [p_to]. rewrite H. apply andb_true_r. Qed.


End Schema.

(** * The properties at concrete inputs *)

(** ** The expectations of the test suite that the builders meet *)

Example string_empty : S_string [] = Return (string_node []).
Proof. reflexivity. Qed.

Example string_constant :
  S_string [VStr "foo"] = Return (string_node [VStr "value"; VStr "foo"]).
Proof. reflexivity. Qed.

Example string_pattern :
  S_string [VRegExp "^fo*"] = Return (string_node [VStr "pattern"; VRegExp "^fo*"]).
Proof. reflexivity. Qed.

Example number_empty : S_number [] = Return (number_node []).
Proof. reflexivity. Qed.

Example number_constant : S_number [VNum 5%float] = Return number_5.
Proof. reflexivity. Qed.

Example number_interval :
  S_number [arr [VNum 0%float; VNum infinity]]
  = Return (number_node [VStr "interval"; arr [VNum 0%float; VNum infinity]]).
Proof. reflexivity. Qed.

Example or_keeps_order :
  S_or accept_all ∅ [number_5; string_foo]
  = Return (VArr blessed [VStr "or"; VObj []; number_5; string_foo]).
Proof. reflexivity. Qed.

Example arrayOf_shorthand :
  literals accept_all ∅ (arr [number_node []])
  = S_arrayOf accept_all ∅ [number_node []]
  /\ S_arrayOf accept_all ∅ [number_node []]
     = Return (VArr blessed [VStr "list"; VObj []; number_node []]).
Proof. by split. Qed.

Example desc_named_string :
  S_desc accept_all ∅ [VStr "Name"; VStr "desc"; string_node []] = Return named_string.
Proof. reflexivity. Qed.

(** ** C1 *)

Lemma reference_key_round_trip_witness :
  S_desc accept_all ∅ [VStr "Name"; VStr "desc"; string_node []] = Return named_string
  /\ exists t st',
       toString_of named_string (State ∅ 0) = Some (t, st')
       /\ t = magic +:+ decimal (plus_one 0)
       /\ cache st' = <[t := named_string]> ∅
       /\ cache st' !! t = Some named_string
       /\ keyType t = reference
       /\ forall (c : gmap string value) (v : value),
            c !! t = Some named_string ->
            key accept_all c v t =
              (vs ← literals accept_all c v; Return (arr [named_string; vs]))
            /\ S_object accept_all c [VObj [(t, v)]] =
               (vs ← literals accept_all c v;
                Return (VArr blessed [VStr "object"; VObj []; arr [named_string; vs]]))
            /\ literals accept_all c (VObj [(t, v)]) =
               (vs ← literals accept_all c v;
                Return (VArr blessed [VStr "dict"; VObj []; arr [named_string; vs]]))
            /\ (forall pair, key accept_all c v t = Return pair ->
                  curse (arg 0 (elements pair)) = curse named_string).
Proof.
  split; [reflexivity|].
  apply (reference_key_round_trip accept_all ∅
           [VStr "Name"; VStr "desc"; string_node []] named_string (State ∅ 0)).
  reflexivity.
Defined.

(** The scenario of the specification: [{[s]: number()}] for the described
    string node [s]. *)
Example reference_key_scenario :
  toString_of named_string (State ∅ 0)
  = Some (token_1, State (<[token_1 := named_string]> ∅) 1)
  /\ S_object accept_all (<[token_1 := named_string]> ∅) [VObj [(token_1, number_node [])]]
     = Return (VArr blessed
                 [VStr "object"; VObj []; arr [named_string; number_node []]]).
Proof. split; [reflexivity | by vm_compute]. Qed.

(** ** C2 *)

(** The token was never minted: [key] returns a pair whose key schema is
    undefined, it does not throw. *)
Lemma unresolved_reference_returns_pair :
  keyType token_1 = reference
  /\ (∅ : gmap string value) !! token_1 = None
  /\ key accept_all ∅ (VNum 5%float) token_1 = Return (arr [VUndef; number_5]).
Proof. by vm_compute. Qed.

Lemma unresolved_reference_yields_undefined_witness :
  keyType token_1 = reference
  /\ (∅ : gmap string value) !! token_1 = None
  /\ key accept_all ∅ (VNum 5%float) token_1 =
     (vs ← literals accept_all ∅ (VNum 5%float); Return (arr [VUndef; vs])).
Proof.
  split; [reflexivity|]. split; [reflexivity|].
  apply (unresolved_reference_yields_undefined accept_all ∅ (VNum 5%float) token_1);
    reflexivity.
Defined.

(** ** C3 *)

(** C3: on the input of the test suite, [array(number(5), string('foo'))],
    the code returns the tuple node [['tuple', {}, ...children]] itself and
    not [['array', {}, ['tuple', ...children]]], the tree the test suite
    expects. *)
Theorem S_array_returns_bare_tuple :
  S_array accept_all ∅ [number_5; string_foo]
  = Return (VArr blessed [VStr "tuple"; VObj []; number_5; string_foo])
  /\ curse (VArr blessed [VStr "tuple"; VObj []; number_5; string_foo])
     <> arr [VStr "array"; VObj [];
             arr [VStr "tuple"; curse number_5; curse string_foo]].
Proof. split; [reflexivity | discriminate]. Qed.

(** ** C4 *)

(** [fn('a').to('x')]: the return slot holds the text 'x', not the string
    schema [literals('x')]. *)
Lemma to_does_not_coerce :
  S_fn accept_all ∅ [VStr "a"] = Return fn_a
  /\ call_to fn_a [VStr "x"]
     = Return (VArr blessed
                 [VStr "function"; VObj []; VStr "x";
                  string_node [VStr "value"; VStr "a"]])
  /\ literals accept_all ∅ (VStr "x") = Return (string_node [VStr "value"; VStr "x"])
  /\ VStr "x" <> string_node [VStr "value"; VStr "x"].
Proof. repeat split; try reflexivity. discriminate. Qed.

Lemma fn_and_to_witness :
  S_fn accept_all ∅ [VStr "a"] = Return fn_a
  /\ exists xs,
       fn_a = VArr (Props true false true) (VStr "function" :: VObj [] :: VNull :: xs)
       /\ Forall2 (fun x y => literals accept_all ∅ x = Return y) [VStr "a"] xs
       /\ forall r,
            call_to fn_a [r]
            = Return (VArr blessed (VStr "function" :: VObj [] :: r :: xs))
            /\ (isSchema r = true -> literals accept_all ∅ r = Return r).
Proof.
  split; [reflexivity|].
  apply (proj2 (fn_and_to accept_all ∅ [VStr "a"])). reflexivity.
Defined.

(** ** C5 *)

(** [desc('T', 'D', s)] and [desc('D', s)] for a node [s] that already has
    a title and a description: both are kept. *)
Lemma desc_keeps_existing_metadata :
  S_desc accept_all ∅ [VStr "Name"; VStr "desc"; string_node []] = Return named_string
  /\ S_desc accept_all ∅ [VStr "T"; VStr "D"; named_string] = Return named_string
  /\ S_desc accept_all ∅ [VStr "D"; named_string] = Return named_string
  /\ obj_get "title" [("title", VStr "Name"); ("description", VStr "desc")]
     = Some (VStr "Name")
  /\ VStr "Name" <> VStr "T".
Proof. repeat split; try reflexivity. discriminate. Qed.

Lemma desc_merges_metadata_witness :
  isSchema (string_node []) = true
  /\ distinct_keys []
  /\ exists opts3 opts2,
       S_desc accept_all ∅ [VStr "T"; VStr "D"; string_node []]
       = Return (VArr (Props true true false) [VStr "string"; VObj opts3; arr []])
       /\ S_desc accept_all ∅ [VStr "D"; string_node []]
          = Return (VArr (Props true true false) [VStr "string"; VObj opts2; arr []])
       /\ (forall k,
             obj_get k opts3 =
             defined (match obj_get k [] with
                      | Some v => Some v
                      | None => obj_get k [("title", VStr "T"); ("description", VStr "D")]
                      end))
       /\ (forall k,
             obj_get k opts2 =
             defined (match obj_get k [] with
                      | Some v => Some v
                      | None => obj_get k [("description", VStr "D")]
                      end))
       /\ (forall k, obj_get k opts3 <> Some VUndef /\ obj_get k opts2 <> Some VUndef)
       /\ (obj_get "title" [] = None -> obj_get "description" [] = None ->
           obj_get "title" opts3 = defined (Some (VStr "T"))
           /\ obj_get "description" opts3 = defined (Some (VStr "D"))
           /\ obj_get "title" opts2 = None
           /\ obj_get "description" opts2 = defined (Some (VStr "D"))).
Proof.
  split; [reflexivity|]. split; [apply NoDup_nil_2|].
  apply (desc_merges_metadata accept_all ∅ (VStr "T") (VStr "D")
           blessed (VStr "string") [] [arr []]).
  - reflexivity.
  - apply NoDup_nil_2.
Defined.

(** ** C6 *)

(** The keys [//] and [/a/b/] are patterns; the source of the regular
    expression is [(?:)] and [a\/b], not the text between the slashes. *)
Lemma pattern_source_is_escaped :
  keyType "//" = pattern
  /\ strip_delimiters "//" = ""
  /\ key accept_all ∅ number_5 "//"
     = Return (arr [string_node [VStr "pattern"; VRegExp "(?:)"]; number_5])
  /\ "(?:)" <> strip_delimiters "//"
  /\ keyType "/a/b/" = pattern
  /\ strip_delimiters "/a/b/" = "a/b"
  /\ key accept_all ∅ number_5 "/a/b/"
     = Return (arr [string_node [VStr "pattern"; VRegExp "a\/b"]; number_5])
  /\ "a\/b" <> strip_delimiters "/a/b/".
Proof. repeat split; try reflexivity; discriminate. Qed.

Lemma keyType_classification_and_pattern_source_witness :
  delimited "/fo*/"
  /\ new_RegExp accept_all (slice "/fo*/" 1 (String.length "/fo*/" - 1))
     = Return (VRegExp "fo*")
  /\ VRegExp "fo*" = VRegExp (EscapeRegExpPattern (strip_delimiters "/fo*/"))
  /\ key accept_all ∅ number_5 "/fo*/" =
     (vs ← literals accept_all ∅ number_5;
      Return (arr [string_node [VStr "pattern"; VRegExp "fo*"]; vs])).
Proof.
  assert (H : delimited "/fo*/").
  { split; [by exists "fo*/" | by exists "/fo*"]. }
  split; [exact H|]. split; [reflexivity|].
  apply (proj1 (proj2 (proj2 (proj2
           (keyType_classification_and_pattern_source accept_all ∅ number_5 "/fo*/"))))).
  - exact H.
  - reflexivity.
Defined.

(** ** C7 *)

Lemma literals_idempotent_witness :
  literals accept_all ∅ (VStr "foo") = Return string_foo
  /\ literals accept_all ∅ string_foo = Return string_foo.
Proof.
  split; [reflexivity|].
  apply (proj1 (literals_idempotent accept_all ∅ (VStr "foo"))). reflexivity.
Defined.

(** ** C8 *)



(** ** C9 *)

Lemma blessing_invariant_witness :
  built accept_all ∅ number_5 /\ isSchema number_5 = true.
Proof.
  assert (H : built accept_all ∅ number_5).
  { apply (built_number accept_all ∅ [VNum 5%float]). reflexivity. }
  split; [exact H|].
  apply (proj1 (blessing_invariant accept_all ∅ number_5)). exact H.
Defined.

(** ** C10 *)

Lemma to_result_has_no_to_witness :
  S_fn accept_all ∅ [VStr "a"] = Return fn_a
  /\ (exists p s, fn_a = VArr p s /\ p_to p = true)
  /\ exists s',
       call_to fn_a [number_5] = Return (VArr blessed s')
       /\ p_to blessed = false
       /\ forall args', call_to (VArr blessed s') args' = Throw TypeError.
Proof.
  split; [reflexivity|].
  apply (to_result_has_no_to accept_all ∅ [VStr "a"] fn_a [number_5]).
  reflexivity.
Defined.

(** * The further properties at concrete inputs *)

Lemma array_literal_list_or_tuple_witness :
  p_schema plain = false
  /\ literals accept_all ∅ (arr [VStr "a"; VNum 5%float])
     = Return (VArr blessed [VStr "tuple"; VObj [];
                             string_node [VStr "value"; VStr "a"]; number_5])
  /\ ((length [VStr "a"; VNum 5%float] = 1
       /\ exists x', literals accept_all ∅ (arg 0 [VStr "a"; VNum 5%float]) = Return x'
                     /\ VArr blessed [VStr "tuple"; VObj [];
                                      string_node [VStr "value"; VStr "a"]; number_5]
                        = VArr blessed [VStr "list"; VObj []; x'])
      \/ (length [VStr "a"; VNum 5%float] <> 1
          /\ exists xs',
               Forall2 (fun x y => literals accept_all ∅ x = Return y)
                 [VStr "a"; VNum 5%float] xs'
               /\ VArr blessed [VStr "tuple"; VObj [];
                                string_node [VStr "value"; VStr "a"]; number_5]
                  = VArr blessed (VStr "tuple" :: VObj [] :: xs'))).
Proof.
  split; [reflexivity|]. split; [reflexivity|].
  apply (array_literal_list_or_tuple accept_all ∅ plain [VStr "a"; VNum 5%float]);
    reflexivity.
Defined.

Lemma partitionN_chunks_witness :
  0 < 2
  /\ concat (partitionN [VStr "a"; VStr "b"; VStr "c"] 2) = [VStr "a"; VStr "b"; VStr "c"]
  /\ length (partitionN [VStr "a"; VStr "b"; VStr "c"] 2) = (3 + 2 - 1) / 2
  /\ Forall (fun chunk => 1 <= length chunk <= 2)
       (partitionN [VStr "a"; VStr "b"; VStr "c"] 2)
  /\ (forall i, (i + 1) * 2 <= 3 ->
        length (nth i (partitionN [VStr "a"; VStr "b"; VStr "c"] 2) []) = 2).
Proof.
  split; [lia|]. apply (partitionN_chunks [VStr "a"; VStr "b"; VStr "c"] 2). lia.
Defined.

Lemma object_of_mapping_witness :
  isArrayLike_length (obj_read "length" [("len", VNum 10%float)]) = false
  /\ S_object accept_all ∅ [VObj [("len", VNum 10%float)]]
     = (ps ← mapM (fun e => key accept_all ∅ (snd e) (fst e)) [("len", VNum 10%float)];
        Return (VArr blessed (VStr "object" :: VObj [] :: ps))).
Proof.
  split; [reflexivity|].
  apply (proj1 (object_of_mapping accept_all ∅ [("len", VNum 10%float)] eq_refl)).
Defined.

Lemma key_pairs_and_errors_witness :
  keyType "/(/" = pattern
  /\ reject_paren (slice "/(/" 1 (String.length "/(/" - 1)) = false
  /\ key reject_paren ∅ VUndef "/(/" = Throw SyntaxError.
Proof.
  split; [reflexivity|]. split; [reflexivity|].
  apply (proj1 (proj2 (key_pairs_and_errors reject_paren ∅ VUndef "/(/")));
    reflexivity.
Defined.

Lemma desc_of_fn_has_no_to_witness :
  S_fn accept_all ∅ [VStr "a"] = Return fn_a
  /\ exists opts,
       S_desc accept_all ∅ [VStr "T"; VStr "D"; fn_a]
       = Return (VArr (Props true true false)
                   (VStr "function" :: VObj opts :: drop 2 (elements fn_a)))
       /\ (forall args, call_to fn_a args <> Throw TypeError)
       /\ (forall s args,
             S_desc accept_all ∅ [VStr "T"; VStr "D"; fn_a] = Return s ->
             call_to s args = Throw TypeError).
Proof.
  split; [reflexivity|].
  apply (desc_of_fn_has_no_to accept_all ∅ [VStr "a"] fn_a (VStr "T") (VStr "D")).
  reflexivity.
Defined.

Lemma desc_over_described_node_witness :
  p_schema blessed = true
  /\ distinct_keys []
  /\ all_defined []
  /\ is_undefined (VStr "Name") = false
  /\ is_undefined (VStr "desc") = false
  /\ S_desc accept_all ∅ [VStr "Name"; VStr "desc"; string_node []] = Return named_string
  /\ S_desc accept_all ∅ [VStr "T"; VStr "D"; named_string] = Return named_string.
Proof.
  split; [reflexivity|]. split; [apply NoDup_nil_2|]. split; [apply List.Forall_nil|].
  split; [reflexivity|]. split; [reflexivity|]. split; [reflexivity|].
  apply (desc_over_described_node accept_all ∅ (VStr "Name") (VStr "desc")
           (VStr "T") (VStr "D") blessed (VStr "string") [] [arr []] named_string).
  - reflexivity.
  - apply NoDup_nil_2.
  - apply List.Forall_nil.
  - reflexivity.
  - reflexivity.
  - reflexivity.
Defined.

Lemma one_token_state_minted : minted one_token_state.
Proof.
  intros k [v Hk]. unfold one_token_state in Hk. cbn [cache] in Hk.
  apply lookup_singleton_Some in Hk as [<- _].
  exists 1. split; [reflexivity | simpl; lia].
Defined.

Lemma minting_adds_one_entry_witness :
  minted one_token_state
  /\ minted (snd (ref_toString number_5 one_token_state))
  /\ cache one_token_state !! fst (ref_toString number_5 one_token_state) = None
  /\ size (cache (snd (ref_toString number_5 one_token_state)))
     = S (size (cache one_token_state))
  /\ (forall k v, cache one_token_state !! k = Some v ->
        cache (snd (ref_toString number_5 one_token_state)) !! k = Some v).
Proof.
  split; [exact one_token_state_minted|].
  pose proof (minting_adds_one_entry number_5 one_token_state one_token_state_minted)
    as (H1 & _ & H3 & _).
  split; [exact H1 | apply H3; simpl; lia].
Defined.

Lemma builders_return_tag_and_options_witness :
  S_or accept_all ∅ [number_5; string_foo]
  = Return (VArr blessed [VStr "or"; VObj []; number_5; string_foo])
  /\ node_shape (VArr blessed [VStr "or"; VObj []; number_5; string_foo]).
Proof.
  split; [reflexivity|].
  apply (proj1 (builders_return_tag_and_options accept_all ∅ [number_5; string_foo]
                  VUndef (VArr blessed [VStr "or"; VObj []; number_5; string_foo]))).
  right. right. left. reflexivity.
Defined.
